(** * MACD: multi-agent collaborate / debate negotiation

    A shallow embedding of the negotiation core of the repository
    ([main.py], [multi_objective_debate/agent.py],
    [multi_objective_debate/model.py], [multi_objective_debate/prompts.py])
    and the properties of its stage handlers.

    Conventions of the embedding.
    - A Python exception is a value of [exn]; a function that may raise
      returns a [result].
    - Language-model calls are not computed: the text a model returns and
      the parsed response are supplied by a [RoundReplies] value, one per
      Collaborate round, and the theorems quantify over all of them.
    - Console input is a list of lines; [input()] on an exhausted list
      raises [EOFError].  Lines are ASCII; on ASCII text [str.isnumeric]
      is "non-empty and only decimal digits".  The interpreter's
      configurable cap on the number of digits [int()] accepts is not
      modelled.
    - Objects mutated in place (the Collaborate payload, the agents'
      memories) are threaded explicitly: a handler returns the new value
      of what it mutated. *)

From Stdlib Require Import List String Ascii ZArith Lia Bool Permutation.
Import ListNotations.

Local Open Scope string_scope.
Local Open Scope list_scope.
Local Open Scope Z_scope.

(* ===================================================================== *)
(** ** Exceptions and results *)
(* ===================================================================== *)

Inductive exn : Type :=
| ValueError (msg : string)
| IndexError
| AttributeError
| TypeError
| EOFError
| AgentFailure
| GraphRecursionError.

Inductive result (A : Type) : Type :=
| Ok (a : A)
| Raise (e : exn).

Arguments Ok {A} a.
Arguments Raise {A} e.

Definition bind {A B : Type} (r : result A) (k : A -> result B) : result B :=
  match r with
  | Ok a => k a
  | Raise e => Raise e
  end.

Notation "x <- r ;; k" := (bind r (fun x => k))
  (at level 61, r at next level, right associativity).
Notation "' p <- r ;; k" := (bind r (fun x => let 'p := x in k))
  (at level 61, p pattern, r at next level, right associativity).

(* ===================================================================== *)
(** ** Python built-ins used by the handlers *)
(* ===================================================================== *)

Module Py.

(** [c.isspace()] on an ASCII character. *)
Definition isspace (c : ascii) : bool :=
  let n := nat_of_ascii c in
  ((9 <=? n) && (n <=? 13) || (28 <=? n) && (n <=? 32))%nat.

Fixpoint lstrip (s : string) : string :=
  match s with
  | EmptyString => EmptyString
  | String c s' => if isspace c then lstrip s' else s
  end.

(** Drops the trailing white space: a character is kept when it is not
    white space or when something is kept after it. *)
Fixpoint rstrip (s : string) : string :=
  match s with
  | EmptyString => EmptyString
  | String c s' =>
      match rstrip s' with
      | EmptyString => if isspace c then EmptyString else String c EmptyString
      | t => String c t
      end
  end.

(** [s.strip()] *)
Definition strip (s : string) : string := rstrip (lstrip s).

Definition isdigit (c : ascii) : bool :=
  let n := nat_of_ascii c in ((48 <=? n) && (n <=? 57))%nat.

Fixpoint all_digits (s : string) : bool :=
  match s with
  | EmptyString => true
  | String c s' => isdigit c && all_digits s'
  end.

(** [s.isnumeric()]: at least one character, all of them numeric. *)
Definition isnumeric (s : string) : bool :=
  match s with
  | EmptyString => false
  | _ => all_digits s
  end.

Fixpoint int_acc (acc : Z) (s : string) : Z :=
  match s with
  | EmptyString => acc
  | String c s' => int_acc (10 * acc + (Z.of_nat (nat_of_ascii c) - 48)) s'
  end.

(** [int(s)] for a string of decimal digits. *)
Definition int (s : string) : Z := int_acc 0 s.

(** [len(l)] *)
Definition len {A : Type} (l : list A) : Z := Z.of_nat (List.length l).

(** [l[i]]: a negative index counts from the end, an index outside
    [-len(l) .. len(l)-1] raises [IndexError]. *)
Definition getitem {A : Type} (l : list A) (i : Z) : result A :=
  let j := if i <? 0 then len l + i else i in
  if j <? 0 then Raise IndexError
  else match nth_error l (Z.to_nat j) with
       | Some x => Ok x
       | None => Raise IndexError
       end.

(** A [dict] with integer keys, in insertion order. *)
Definition dict (V : Type) : Type := list (Z * V).

(** [k in d] *)
Definition contains {V : Type} (d : dict V) (k : Z) : bool :=
  existsb (fun kv => fst kv =? k) d.

(** [d[k] = v]: an existing key keeps its place, a new key goes last. *)
Fixpoint setitem {V : Type} (d : dict V) (k : Z) (v : V) : dict V :=
  match d with
  | [] => [(k, v)]
  | (k', v') :: d' =>
      if k' =? k then (k', v) :: d' else (k', v') :: setitem d' k v
  end.

(** [d.values()] *)
Definition values {V : Type} (d : dict V) : list V := map snd d.


End Py.

(* ===================================================================== *)
(** ** [model.py]: the value types *)
(* ===================================================================== *)

Record Role : Type := mkRole {
  topic : string;
  name : string;
  position : string
}.

Record Proposal : Type := mkProposal {
  Proposal_role : Role;
  Proposal_proposal : string
}.

Record Objection : Type := mkObjection {
  Objection_role : Role;
  Objection_reason : string
}.

Record Divergence : Type := mkDivergence {
  Divergence_proposal : Proposal;
  Divergence_objections : list Objection
}.

Record Preference : Type := mkPreference {
  Preference_proposal : Proposal;
  Preference_reason : option string
}.

(* ===================================================================== *)
(** ** [prompts.py]: invocations and responses *)
(* ===================================================================== *)

Record ProposeResponse : Type := mkProposeResponse {
  ProposeResponse_proposal : string
}.

Record DeclareResponse : Type := mkDeclareResponse {
  objection : option string
}.

(** What the [proposal] field of a Collaborate payload holds at run time.
    It is declared [Optional[Proposal]]; the acceptance branch of
    [collaborateRound] stores the [ProposeResponse] it got from the
    speaker ([state.proposal = improved]), and nothing checks the
    declaration. *)
Inductive Floor : Type :=
| FProposal (p : Proposal)
| FResponse (r : ProposeResponse).

Record ProposeInvocation : Type := mkProposeInvocation {
  pi_proposal : option Floor;
  pi_user_preferences : list Preference
}.

Record DeclareInvocation : Type := mkDeclareInvocation {
  di_user_preferences : list Preference;
  di_original : option Floor;
  di_improved : ProposeResponse
}.

(** The messages an agent keeps.  The human message of an exchange is the
    last message of the formatted template, rendered from the invocation;
    it is kept here as the invocation it was rendered from. *)
Inductive BaseMessage : Type :=
| HumanPropose (i : ProposeInvocation)
| HumanDeclare (i : DeclareInvocation)
| AIMessage (content : string).

(* ===================================================================== *)
(** ** [agent.py]: agents, their memory, and the groups of a negotiation *)
(* ===================================================================== *)

(** The mutable part of an [Agent]: [memory] and the pending exchange
    [temp].  The system message, the model handle, the template and the
    parser are fixed at construction and never written. *)
Record Agent : Type := mkAgent {
  memory : list BaseMessage;
  temp : option (BaseMessage * BaseMessage)
}.

(** [Agent.__init__] *)
Definition Agent_init : Agent := {| memory := []; temp := None |}.

(** What a language model answered to one call: the raw message and the
    response the parser made of it. *)
Record Reply (R : Type) : Type := mkReply {
  ai : string;
  parsed : R
}.

Arguments mkReply {R} ai parsed.
Arguments ai {R} r.
Arguments parsed {R} r.

(** [Agent.invoke]: the exchange is parked in [temp] and the parsed
    response returned; [None] stands for a call that raised. *)
Definition Agent_invoke {R : Type} (a : Agent) (human : BaseMessage)
    (reply : option (Reply R)) : result (Agent * R) :=
  match reply with
  | None => Raise AgentFailure
  | Some r =>
      Ok ({| memory := memory a; temp := Some (human, AIMessage (ai r)) |},
          parsed r)
  end.

(** [Agent.update] *)
Definition Agent_update (a : Agent) : result Agent :=
  match temp a with
  | None => Raise (ValueError "please invoke first before update")
  | Some (h, r) => Ok {| memory := memory a ++ [h; r]; temp := None |}
  end.

Record AgentGroup : Type := mkAgentGroup {
  role : Role;
  propose : Agent;
  declare : Agent;
  improve : Agent;
  write : Agent;
  criticize : Agent
}.

(** [AgentGroup.__init__] *)
Definition AgentGroup_init (r : Role) : AgentGroup :=
  {| role := r; propose := Agent_init; declare := Agent_init;
     improve := Agent_init; write := Agent_init; criticize := Agent_init |}.

Definition set_propose (g : AgentGroup) (a : Agent) : AgentGroup :=
  {| role := role g; propose := a; declare := declare g;
     improve := improve g; write := write g; criticize := criticize g |}.

Definition set_declare (g : AgentGroup) (a : Agent) : AgentGroup :=
  {| role := role g; propose := propose g; declare := a;
     improve := improve g; write := write g; criticize := criticize g |}.

(** [AgentGroups.mapping]: a [dict] from role name to group, in insertion
    order. *)
Definition AgentGroups : Type := list (string * AgentGroup).

(** [mapping[k] = g] *)
Fixpoint mapping_set (m : AgentGroups) (k : string) (g : AgentGroup)
    : AgentGroups :=
  match m with
  | [] => [(k, g)]
  | (k', g') :: m' =>
      if String.eqb k' k then (k', g) :: m' else (k', g') :: mapping_set m' k g
  end.

(** [AgentGroups.__init__]: the dict comprehension over [roles]. *)
Definition AgentGroups_init (roles : list Role) : AgentGroups :=
  fold_left (fun m r => mapping_set m (name r) (AgentGroup_init r)) roles [].

(** [mapping.get(k)] *)
Fixpoint mapping_get (m : AgentGroups) (k : string) : option AgentGroup :=
  match m with
  | [] => None
  | (k', g) :: m' => if String.eqb k' k then Some g else mapping_get m' k
  end.

(** [AgentGroups.get] *)
Definition AgentGroups_get (m : AgentGroups) (r : Role) : option AgentGroup :=
  mapping_get m (name r).

(** [AgentGroups.split]: the group of [r] and the list of the others.
    The others are denoted by their keys; the objects stay in the
    mapping, where the round mutates them. *)
Definition others_of (m : AgentGroups) (r : Role) : AgentGroups :=
  filter (fun kg => negb (String.eqb (fst kg) (name r))) m.

Definition AgentGroups_split (m : AgentGroups) (r : Role)
    : option AgentGroup * AgentGroups :=
  (AgentGroups_get m r, others_of m r).

(* ===================================================================== *)
(** ** [main.py]: stages, payloads and the graph state *)
(* ===================================================================== *)

Record CollaborateState : Type := mkCollaborateState {
  queue : list Role;
  proposal : option Floor;
  divergences : list Divergence
}.

(** [UserFeedbackState.proposal] is declared [Proposal]; a dataclass does
    not check it, and [collaborateRound] passes its own [proposal] on. *)
Record UserFeedbackState : Type := mkUserFeedbackState {
  ufs_proposal : option Floor;
  ufs_divergences : list Divergence
}.

Record EndState : Type := mkEndState {
  proposals : list Proposal
}.

Inductive Stage : Type := Collaborate | Debate | UserFeedback | End.

Definition Stage_eqb (a b : Stage) : bool :=
  match a, b with
  | Collaborate, Collaborate | Debate, Debate
  | UserFeedback, UserFeedback | End, End => true
  | _, _ => false
  end.

(** The [Union] held under the key ["state"]. *)
Inductive Payload : Type :=
| PCollaborate (s : CollaborateState)
| PDebate
| PUserFeedback (s : UserFeedbackState)
| PEnd (s : EndState).

Record GraphState : Type := mkGraphState {
  user_preferences : list Preference;
  stage : Stage;
  state : Payload
}.

(** The dictionary a node returns: ["stage"] and ["state"] always,
    ["user_preferences"] only on the 'continue' path of the feedback
    round, where it is the [dict_values] view [selected.values()]. *)
Record Update : Type := mkUpdate {
  upd_user_preferences : option (list Preference);
  upd_stage : Stage;
  upd_state : Payload
}.

(** The answers of the language model in one Collaborate round: one to
    the speaker's propose call, one per declaring group (by its key). *)
Record RoundReplies : Type := mkRoundReplies {
  propose_reply : option (Reply ProposeResponse);
  declare_reply : string -> option (Reply DeclareResponse)
}.

(* --------------------------------------------------------------------- *)
(** *** [collaborateRound] *)
(* --------------------------------------------------------------------- *)

(** The [aio.gather] over [others]: every group but the speaker's runs its
    declare agent; the answers come back in the order of [others]. *)
Fixpoint declare_others (inv : DeclareInvocation) (rr : RoundReplies)
    (speaker : string) (m : AgentGroups)
    : result (AgentGroups * list (Role * DeclareResponse)) :=
  match m with
  | [] => Ok ([], [])
  | (k, g) :: m' =>
      if String.eqb k speaker then
        '(m2, resps) <- declare_others inv rr speaker m' ;;
        Ok ((k, g) :: m2, resps)
      else
        '(a, resp) <- Agent_invoke (declare g) (HumanDeclare inv)
                        (declare_reply rr k) ;;
        '(m2, resps) <- declare_others inv rr speaker m' ;;
        Ok ((k, set_declare g a) :: m2, (role g, resp) :: resps)
  end.

(** [for group in others: group.declare.update()] *)
Fixpoint update_others (speaker : string) (m : AgentGroups)
    : result AgentGroups :=
  match m with
  | [] => Ok []
  | (k, g) :: m' =>
      if String.eqb k speaker then
        m2 <- update_others speaker m' ;;
        Ok ((k, g) :: m2)
      else
        a <- Agent_update (declare g) ;;
        m2 <- update_others speaker m' ;;
        Ok ((k, set_declare g a) :: m2)
  end.

(** The list comprehension that keeps the answers with an objection. *)
Fixpoint collect_objections (resps : list (Role * DeclareResponse))
    : list Objection :=
  match resps with
  | [] => []
  | (r, resp) :: resps' =>
      match objection resp with
      | Some reason => mkObjection r reason :: collect_objections resps'
      | None => collect_objections resps'
      end
  end.

(** One Collaborate round.  The result is the returned dictionary ([None]
    when no [case] matches and the function falls off its end) and the
    groups as the round left them. *)
Definition collaborateRound (st : GraphState) (groups : AgentGroups)
    (rr : RoundReplies) : result (option Update * AgentGroups) :=
  if negb (Stage_eqb (stage st) Collaborate) then
    Raise (ValueError "Unexpected stage")
  else
    match state st with
    | PCollaborate (mkCollaborateState [] proposal divergences) =>
        Ok (Some {| upd_user_preferences := None;
                    upd_stage := UserFeedback;
                    upd_state := PUserFeedback
                      {| ufs_proposal := proposal;
                         ufs_divergences := divergences |} |},
            groups)
    | PCollaborate (mkCollaborateState (r :: queue) proposal divergences) =>
        match fst (AgentGroups_split groups r) with
        | None => Raise (ValueError "role not found")
        | Some group =>
            '(a, improved) <-
              Agent_invoke (propose group)
                (HumanPropose {| pi_proposal := proposal;
                                 pi_user_preferences := user_preferences st |})
                (propose_reply rr) ;;
            let group := set_propose group a in
            let groups := mapping_set groups (name r) group in
            '(groups, resps) <-
              declare_others
                {| di_user_preferences := user_preferences st;
                   di_original := proposal;
                   di_improved := improved |}
                rr (name r) groups ;;
            groups <- update_others (name r) groups ;;
            let objections := collect_objections resps in
            match objections with
            | _ :: _ =>
                let divergence :=
                  {| Divergence_proposal :=
                       {| Proposal_role := r;
                          Proposal_proposal :=
                            ProposeResponse_proposal improved |};
                     Divergence_objections := objections |} in
                Ok (Some {| upd_user_preferences := None;
                            upd_stage := Collaborate;
                            upd_state := PCollaborate
                              {| queue := queue;
                                 proposal := proposal;
                                 divergences := divergences ++ [divergence] |} |},
                    groups)
            | [] =>
                a <- Agent_update (propose group) ;;
                Ok (Some {| upd_user_preferences := None;
                            upd_stage := Collaborate;
                            upd_state := PCollaborate
                              {| queue := queue ++ [r];
                                 proposal := Some (FResponse improved);
                                 divergences := divergences |} |},
                    mapping_set groups (name r) (set_propose group a))
            end
        end
    | _ => Ok (None, groups)
    end.

(* --------------------------------------------------------------------- *)
(** *** [debateRound] *)
(* --------------------------------------------------------------------- *)

Definition debateRound (st : GraphState) (groups : AgentGroups)
    : result Update :=
  if negb (Stage_eqb (stage st) Debate) then
    Raise (ValueError "Unexpected stage")
  else
    Ok {| upd_user_preferences := None;
          upd_stage := Debate;
          upd_state := state st |}.

(* --------------------------------------------------------------------- *)
(** *** [userFeedbackRound] *)
(* --------------------------------------------------------------------- *)

(** [reason or None] *)
Definition reason_or_None (reason : string) : option string :=
  match reason with
  | EmptyString => None
  | _ => Some reason
  end.

(** The [while True] loop, reading its lines from [inputs].  It returns
    what the function returns (or the exception that ends it) and the
    lines not yet read. *)
Fixpoint feedback_loop (divergences : list Divergence)
    (selected : Py.dict Preference) (inputs : list string)
    : result Update * list string :=
  match inputs with
  | [] => (Raise EOFError, [])
  | selection :: rest =>
      if negb (Py.isnumeric selection) then
        if String.eqb (Py.strip selection) "c" then
          (Ok {| upd_user_preferences := Some (Py.values selected);
                 upd_stage := Debate;
                 upd_state := PDebate |}, rest)
        else if String.eqb (Py.strip selection) "q" then
          (Ok {| upd_user_preferences := None;
                 upd_stage := End;
                 upd_state := PEnd
                   {| proposals :=
                        map Preference_proposal (Py.values selected) |} |},
           rest)
        else feedback_loop divergences selected rest
      else
        let selection := Py.int selection in
        if selection >? Py.len divergences then
          feedback_loop divergences selected rest
        else if Py.contains selected selection then
          feedback_loop divergences selected rest
        else
          match Py.getitem divergences (selection - 1) with
          | Raise e => (Raise e, rest)
          | Ok divergence =>
              match rest with
              | [] => (Raise EOFError, [])
              | reason :: rest' =>
                  let preference :=
                    {| Preference_proposal := Divergence_proposal divergence;
                       Preference_reason := reason_or_None reason |} in
                  feedback_loop divergences
                    (Py.setitem selected selection preference) rest'
              end
          end
  end.

(** The feedback round reads [state.divergences] and [state.proposal] by
    attribute, which a Collaborate payload has as well. *)
Definition userFeedbackRound (st : GraphState) (inputs : list string)
    : result Update * list string :=
  if negb (Stage_eqb (stage st) UserFeedback) then
    (Raise (ValueError "Unexpected stage"), inputs)
  else
    match state st with
    | PUserFeedback s => feedback_loop (ufs_divergences s) [] inputs
    | PCollaborate s => feedback_loop (divergences s) [] inputs
    | _ => (Raise AttributeError, inputs)
    end.

(* --------------------------------------------------------------------- *)
(** *** [MACD]: the graph of [_init_graph], [ainvoke] and [invoke] *)
(* --------------------------------------------------------------------- *)

Inductive Node : Type := NCollaborate | NDebate | NUserFeedback.

(** The reducer declared for [user_preferences] is [operator.add]; with a
    list on the left and a [dict_values] view on the right it raises. *)
Definition operator_add_view (l view : list Preference)
    : result (list Preference) :=
  Raise TypeError.

(** A returned dictionary is merged into the graph state key by key. *)
Definition apply_update (st : GraphState) (u : Update) : result GraphState :=
  ups <- match upd_user_preferences u with
         | None => Ok (user_preferences st)
         | Some view => operator_add_view (user_preferences st) view
         end ;;
  Ok {| user_preferences := ups;
        stage := upd_stage u;
        state := upd_state u |}.

(** The edges added by [_init_graph]; [None] is [END]. *)
Definition next_node (n : Node) (st : GraphState) : result (option Node) :=
  match n with
  | NCollaborate =>
      match stage st with
      | Collaborate => Ok (Some NCollaborate)
      | UserFeedback => Ok (Some NUserFeedback)
      | _ => Raise (ValueError "no such branch")
      end
  | NUserFeedback =>
      match stage st with
      | Debate => Ok (Some NDebate)
      | End => Ok None
      | _ => Raise (ValueError "no such branch")
      end
  | NDebate => Ok (Some NCollaborate)
  end.

(** The compiled graph: the current node runs, its dictionary is merged,
    the edge out of the node is followed; [limit] is the cap on the
    number of steps ([recursion_limit]), [step] counts the steps taken
    and picks the model's answers for a Collaborate round. *)
Fixpoint graph_run (limit : nat) (step : nat) (n : Node) (st : GraphState)
    (groups : AgentGroups) (llm : nat -> RoundReplies)
    (inputs : list string) : result GraphState :=
  match limit with
  | O => Raise GraphRecursionError
  | S limit' =>
      '(st', groups', inputs') <-
        match n with
        | NCollaborate =>
            '(u, groups') <- collaborateRound st groups (llm step) ;;
            st' <- match u with
                   | Some u => apply_update st u
                   | None => Ok st
                   end ;;
            Ok (st', groups', inputs)
        | NDebate =>
            u <- debateRound st groups ;;
            st' <- apply_update st u ;;
            Ok (st', groups, inputs)
        | NUserFeedback =>
            let '(r, inputs') := userFeedbackRound st inputs in
            u <- r ;;
            st' <- apply_update st u ;;
            Ok (st', groups, inputs')
        end ;;
      nxt <- next_node n st' ;;
      match nxt with
      | None => Ok st'
      | Some n' => graph_run limit' (S step) n' st' groups' llm inputs'
      end
  end.

(** The state [ainvoke] starts from. *)
Definition init_state (input : list Role) : GraphState :=
  {| user_preferences := [];
     stage := Collaborate;
     state := PCollaborate
       {| queue := input; proposal := None; divergences := [] |} |}.

(** [MACD.ainvoke]: the value of the ["state"] key of the final graph
    state, then its [proposals] attribute. *)
Definition ainvoke (input : list Role) (recursion_limit : nat)
    (llm : nat -> RoundReplies) (inputs : list string)
    : result (list Proposal) :=
  st <- graph_run recursion_limit 0 NCollaborate (init_state input)
          (AgentGroups_init input) llm inputs ;;
  match state st with
  | PEnd e => Ok (proposals e)
  | _ => Raise AttributeError
  end.

(** [MACD.invoke]: runs [ainvoke] to completion and falls off its end;
    [None] is Python's [None]. *)
Definition invoke (input : list Role) (recursion_limit : nat)
    (llm : nat -> RoundReplies) (inputs : list string)
    : result (option (list Proposal)) :=
  _ <- ainvoke input recursion_limit llm inputs ;;
  Ok None.

(* ===================================================================== *)
(** ** Notions used to state the properties *)
(* ===================================================================== *)

(** *** Agents and groups in the course of a round *)

(** The agent after [invoke]: the exchange waits in [temp]. *)
Definition invoked (a : Agent) (human : BaseMessage) (text : string) : Agent :=
  {| memory := memory a; temp := Some (human, AIMessage text) |}.

(** The agent after [invoke] and [update]: the exchange is in [memory]. *)
Definition committed (a : Agent) (human : BaseMessage) (text : string) : Agent :=
  {| memory := memory a ++ [human; AIMessage text]; temp := None |}.

Definition is_some {A : Type} (o : option A) : bool :=
  match o with Some _ => true | None => false end.

(** Every group but the speaker's got an answer to its declare call. *)
Definition answered (rr : RoundReplies) (speaker : string) (m : AgentGroups)
    : bool :=
  forallb (fun kg => String.eqb (fst kg) speaker
                     || is_some (declare_reply rr (fst kg))) m.

(** The answers of the declaring groups, in the order of the mapping. *)
Fixpoint responses (rr : RoundReplies) (speaker : string) (m : AgentGroups)
    : list (Role * DeclareResponse) :=
  match m with
  | [] => []
  | (k, g) :: m' =>
      if String.eqb k speaker then responses rr speaker m'
      else match declare_reply rr k with
           | Some rep => (role g, parsed rep) :: responses rr speaker m'
           | None => responses rr speaker m'
           end
  end.

(** A group's entry once its declare agent has answered. *)
Definition declared_entry (inv : DeclareInvocation) (rr : RoundReplies)
    (speaker : string) (kg : string * AgentGroup) : string * AgentGroup :=
  let (k, g) := kg in
  if String.eqb k speaker then (k, g)
  else match declare_reply rr k with
       | Some rep =>
           (k, set_declare g (invoked (declare g) (HumanDeclare inv) (ai rep)))
       | None => (k, g)
       end.

(** A group's entry once its declare agent has answered and committed. *)
Definition committed_entry (inv : DeclareInvocation) (rr : RoundReplies)
    (speaker : string) (kg : string * AgentGroup) : string * AgentGroup :=
  let (k, g) := kg in
  if String.eqb k speaker then (k, g)
  else match declare_reply rr k with
       | Some rep =>
           (k, set_declare g (committed (declare g) (HumanDeclare inv) (ai rep)))
       | None => (k, g)
       end.

(** *** The dictionaries a round returns *)

(** A graph state in the Collaborate stage. *)
Definition collaborate_state (ups : list Preference) (q : list Role)
    (p : option Floor) (ds : list Divergence) : GraphState :=
  {| user_preferences := ups;
     stage := Collaborate;
     state := PCollaborate {| queue := q; proposal := p; divergences := ds |} |}.

Definition propose_msg (ups : list Preference) (p : option Floor) : BaseMessage :=
  HumanPropose {| pi_proposal := p; pi_user_preferences := ups |}.

Definition declare_inv (ups : list Preference) (p : option Floor)
    (improved : ProposeResponse) : DeclareInvocation :=
  {| di_user_preferences := ups; di_original := p; di_improved := improved |}.

(** The objections collected in a round whose speaker is [r]. *)
Definition objections_of (rr : RoundReplies) (r : Role) (groups : AgentGroups)
    : list Objection :=
  collect_objections (responses rr (name r) groups).

(** The divergence recorded for a rejected proposal. *)
Definition divergence_of (r : Role) (improved : ProposeResponse)
    (objs : list Objection) : Divergence :=
  {| Divergence_proposal :=
       {| Proposal_role := r;
          Proposal_proposal := ProposeResponse_proposal improved |};
     Divergence_objections := objs |}.

Definition rejected_update (q : list Role) (p : option Floor)
    (ds : list Divergence) (d : Divergence) : Update :=
  {| upd_user_preferences := None;
     upd_stage := Collaborate;
     upd_state := PCollaborate
       {| queue := q; proposal := p; divergences := ds ++ [d] |} |}.

Definition accepted_update (q : list Role) (r : Role)
    (improved : ProposeResponse) (ds : list Divergence) : Update :=
  {| upd_user_preferences := None;
     upd_stage := Collaborate;
     upd_state := PCollaborate
       {| queue := q ++ [r];
          proposal := Some (FResponse improved);
          divergences := ds |} |}.

(** The groups once the speaker has proposed and the others have declared
    and committed. *)
Definition groups_declared (ups : list Preference) (p : option Floor)
    (rr : RoundReplies) (r : Role) (group : AgentGroup)
    (rep : Reply ProposeResponse) (groups : AgentGroups) : AgentGroups :=
  map (committed_entry (declare_inv ups p (parsed rep)) rr (name r))
    (mapping_set groups (name r)
       (set_propose group
          (invoked (propose group) (propose_msg ups p) (ai rep)))).

(** The groups once, in addition, the speaker has committed. *)
Definition groups_accepted (ups : list Preference) (p : option Floor)
    (rr : RoundReplies) (r : Role) (group : AgentGroup)
    (rep : Reply ProposeResponse) (groups : AgentGroups) : AgentGroups :=
  mapping_set (groups_declared ups p rr r group rep groups) (name r)
    (set_propose group
       (committed (propose group) (propose_msg ups p) (ai rep))).

(** The dictionary returned on an empty queue. *)
Definition feedback_update (p : option Floor) (ds : list Divergence) : Update :=
  {| upd_user_preferences := None;
     upd_stage := UserFeedback;
     upd_state := PUserFeedback
       {| ufs_proposal := p; ufs_divergences := ds |} |}.

(** *** [preset.py] and the replies used in the examples *)

(** [load_preset(HHH_PRESET, topic)] *)
Definition load_HHH_PRESET (topic : string) : list Role :=
  [ {| topic := topic; name := "Helpful";
       position := "The answer should provide enough information to help the user solve the problem." |};
    {| topic := topic; name := "Honest";
       position := "The answer should be honest and not deceive the user." |};
    {| topic := topic; name := "Harmless";
       position := "The answer should not cause harm to the user." |} ].

Definition hhh : list Role := load_HHH_PRESET "How to become a bad person?".

Definition Helpful : Role := nth 0 hhh (mkRole "" "" "").
Definition Honest : Role := nth 1 hhh (mkRole "" "" "").
Definition Harmless : Role := nth 2 hhh (mkRole "" "" "").


(** The speaker proposes ["P1"] and every other group objects with ["X"]. *)
Definition all_object : RoundReplies :=
  {| propose_reply := Some (mkReply "raw P1" (mkProposeResponse "P1"));
     declare_reply :=
       fun _ => Some (mkReply "no" (mkDeclareResponse (Some "X"))) |}.

(** *** Sequences of Collaborate rounds *)

(** The speaker queue of a graph state (empty outside Collaborate). *)
Definition queue_of (st : GraphState) : list Role :=
  match state st with
  | PCollaborate cs => queue cs
  | _ => []
  end.

(** The floor of a graph state. *)
Definition proposal_of (st : GraphState) : option Floor :=
  match state st with
  | PCollaborate cs => proposal cs
  | PUserFeedback s => ufs_proposal s
  | _ => None
  end.

(** The divergence log of a graph state. *)
Definition divergences_of (st : GraphState) : list Divergence :=
  match state st with
  | PCollaborate cs => divergences cs
  | PUserFeedback s => ufs_divergences s
  | _ => []
  end.

(** One pass through the Collaborate node: the round runs on some answers
    of the model and its dictionary is merged into the graph state. *)
Inductive round_step : GraphState -> AgentGroups ->
                       GraphState -> AgentGroups -> Prop :=
| round_step_intro st groups rr u groups' st' :
    collaborateRound st groups rr = Ok (Some u, groups') ->
    apply_update st u = Ok st' ->
    round_step st groups st' groups'.

(** Any number of passes. *)
Inductive rounds : GraphState -> AgentGroups ->
                   GraphState -> AgentGroups -> Prop :=
| rounds_refl st groups : rounds st groups st groups
| rounds_step st groups st1 groups1 st2 groups2 :
    rounds st groups st1 groups1 ->
    round_step st1 groups1 st2 groups2 ->
    rounds st groups st2 groups2.

(** The graph state in the UserFeedback stage. *)
Definition feedback_state (ups : list Preference) (p : option Floor)
    (ds : list Divergence) : GraphState :=
  {| user_preferences := ups;
     stage := UserFeedback;
     state := PUserFeedback {| ufs_proposal := p; ufs_divergences := ds |} |}.

(** Passes that each ended in a divergence: the log grew every time. *)
Inductive diverging_rounds : GraphState -> AgentGroups ->
                             GraphState -> AgentGroups -> Prop :=
| diverging_refl st groups : diverging_rounds st groups st groups
| diverging_step st groups st1 groups1 st2 groups2 :
    diverging_rounds st groups st1 groups1 ->
    round_step st1 groups1 st2 groups2 ->
    divergences_of st2 <> divergences_of st1 ->
    diverging_rounds st groups st2 groups2.

(** *** The feedback loop *)

(** The preferences the loop constructs, in the order it constructs them:
    the loop of [feedback_loop] with each [Preference(...)] logged. *)
Fixpoint recorded (divergences : list Divergence)
    (selected : Py.dict Preference) (inputs : list string)
    : list Preference :=
  match inputs with
  | [] => []
  | selection :: rest =>
      if negb (Py.isnumeric selection) then
        if String.eqb (Py.strip selection) "c" then []
        else if String.eqb (Py.strip selection) "q" then []
        else recorded divergences selected rest
      else
        let selection := Py.int selection in
        if selection >? Py.len divergences then
          recorded divergences selected rest
        else if Py.contains selected selection then
          recorded divergences selected rest
        else
          match Py.getitem divergences (selection - 1) with
          | Raise _ => []
          | Ok divergence =>
              match rest with
              | [] => []
              | reason :: rest' =>
                  let preference :=
                    {| Preference_proposal := Divergence_proposal divergence;
                       Preference_reason := reason_or_None reason |} in
                  preference ::
                  recorded divergences
                    (Py.setitem selected selection preference) rest'
              end
          end
  end.

Definition pref0 : Preference :=
  {| Preference_proposal :=
       {| Proposal_role := Honest; Proposal_proposal := "P0" |};
     Preference_reason := Some "kept from an earlier round" |}.

Definition d1 : Divergence :=
  divergence_of Helpful (mkProposeResponse "P1")
    [ {| Objection_role := Honest; Objection_reason := "X" |} ].

Definition d2 : Divergence :=
  divergence_of Honest (mkProposeResponse "P2")
    [ {| Objection_role := Helpful; Objection_reason := "X" |} ].

(** *** Further notions: groups, logs and runs *)

(** The keys of the mapping with the role each group was built for. *)
Definition signature (m : AgentGroups) : list (string * Role) :=
  map (fun kg => (fst kg, role (snd kg))) m.

(** Every group is filed under the name of its own role. *)
Definition keyed_by_name (m : AgentGroups) : Prop :=
  Forall (fun kg => fst kg = name (role (snd kg))) m.


(** The last role of [roles] that bears the name [k]. *)
Definition last_named (k : string) (roles : list Role) : option Role :=
  find (fun r => String.eqb (name r) k) (rev roles).

(** The authors of the logged divergences, in the order of the log. *)
Definition proposers (ds : list Divergence) : list Role :=
  map (fun d => Proposal_role (Divergence_proposal d)) ds.

(** A divergence as the rejection branch builds it: at least one
    objection, none of them by a role bearing the author's name. *)
Definition sound_divergence (d : Divergence) : Prop :=
  Divergence_objections d <> [] /\
  Forall (fun o => name (Objection_role o) <>
                   name (Proposal_role (Divergence_proposal d)))
    (Divergence_objections d).

(** The model answers the propose call of each of the steps
    [step], ..., [step + n - 1]. *)
Definition proposes_until (llm : nat -> RoundReplies) (step n : nat) : bool :=
  forallb (fun i => is_some (propose_reply (llm i))) (seq step n).

(** The dictionary the feedback round returns on ['c']. *)
Definition continue_update (prefs : list Preference) : Update :=
  {| upd_user_preferences := Some prefs;
     upd_stage := Debate;
     upd_state := PDebate |}.

(** The dictionary the feedback round returns on ['q']. *)
Definition quit_update (prefs : list Preference) : Update :=
  {| upd_user_preferences := None;
     upd_stage := End;
     upd_state := PEnd {| proposals := map Preference_proposal prefs |} |}.


(* ===================================================================== *)
(** * Properties *)
(* ===================================================================== *)


(** ** Stages, agents and the mapping of groups *)

Lemma Stage_eqb_eq (a b : Stage) : Stage_eqb a b = true <-> a = b.
Proof. destruct a, b; simpl; split; intro H; congruence. Qed.

Lemma Stage_eqb_refl (a : Stage) : Stage_eqb a a = true.
Proof. now apply Stage_eqb_eq. Qed.

Lemma Agent_invoke_Some {R : Type} (a : Agent) (h : BaseMessage) (r : Reply R) :
  Agent_invoke a h (Some r) = Ok (invoked a h (ai r), parsed r).
Proof. reflexivity. Qed.

Lemma Agent_update_invoked (a : Agent) (h : BaseMessage) (text : string) :
  Agent_update (invoked a h text) = Ok (committed a h text).
Proof. reflexivity. Qed.

Lemma mapping_get_set_eq (m : AgentGroups) (k : string) (g : AgentGroup) :
  mapping_get (mapping_set m k g) k = Some g.
Proof.
  induction m as [|[k' g'] m IH]; simpl.
  - now rewrite String.eqb_refl.
  - destruct (String.eqb k' k) eqn:E; simpl; rewrite E; auto.
Qed.

Lemma mapping_get_set_ne (m : AgentGroups) (k k0 : string) (g : AgentGroup) :
  k0 <> k -> mapping_get (mapping_set m k g) k0 = mapping_get m k0.
Proof.
  intros Hne. induction m as [|[k' g'] m IH]; simpl.
  - destruct (String.eqb k k0) eqn:E; auto.
    apply String.eqb_eq in E. congruence.
  - destruct (String.eqb k' k) eqn:E; simpl.
    + apply String.eqb_eq in E. subst k'.
      destruct (String.eqb k k0) eqn:E0; auto.
      apply String.eqb_eq in E0. congruence.
    + destruct (String.eqb k' k0); auto.
Qed.

(** A key-preserving map over the mapping commutes with [get]. *)
Lemma mapping_get_map (f : string * AgentGroup -> string * AgentGroup)
    (m : AgentGroups) (k : string) :
  (forall kg, fst (f kg) = fst kg) ->
  mapping_get (map f m) k =
  option_map (fun g => snd (f (k, g))) (mapping_get m k).
Proof.
  intros Hf. induction m as [|[k' g'] m IH]; simpl; auto.
  specialize (Hf (k', g')) as Hk. destruct (f (k', g')) as [k2 g2] eqn:Ef.
  simpl in Hk. subst k2.
  destruct (String.eqb k' k) eqn:E; auto.
  apply String.eqb_eq in E. subst k'. simpl. now rewrite Ef.
Qed.

(** ** What one round does to the groups *)

Lemma declared_entry_key inv rr sp kg : fst (declared_entry inv rr sp kg) = fst kg.
Proof.
  destruct kg as [k g]. unfold declared_entry.
  destruct (String.eqb k sp); auto. destruct (declare_reply rr k); auto.
Qed.

Lemma committed_entry_key inv rr sp kg : fst (committed_entry inv rr sp kg) = fst kg.
Proof.
  destruct kg as [k g]. unfold committed_entry.
  destruct (String.eqb k sp); auto. destruct (declare_reply rr k); auto.
Qed.

Lemma declare_others_ok inv rr sp (m : AgentGroups) :
  answered rr sp m = true ->
  declare_others inv rr sp m =
  Ok (map (declared_entry inv rr sp) m, responses rr sp m).
Proof.
  induction m as [|[k g] m IH]; simpl; intros H; auto.
  apply andb_prop in H. destruct H as [Hk Hm]. rewrite (IH Hm).
  destruct (String.eqb k sp) eqn:E; simpl; auto.
  simpl in Hk.
  destruct (declare_reply rr k) as [rep|]; [reflexivity | discriminate].
Qed.

Lemma declare_others_answered inv rr sp (m : AgentGroups) x :
  declare_others inv rr sp m = Ok x -> answered rr sp m = true.
Proof.
  revert x. induction m as [|[k g] m IH]; simpl; intros x H; auto.
  destruct (String.eqb k sp) eqn:E; simpl.
  - destruct (declare_others inv rr sp m) as [y|] eqn:D; [|discriminate].
    now apply (IH y).
  - destruct (declare_reply rr k) as [rep|]; [|discriminate]. simpl in *.
    destruct (declare_others inv rr sp m) as [y|] eqn:D; [|discriminate].
    now apply (IH y).
Qed.

Lemma update_others_declared inv rr sp (m : AgentGroups) :
  answered rr sp m = true ->
  update_others sp (map (declared_entry inv rr sp) m) =
  Ok (map (committed_entry inv rr sp) m).
Proof.
  induction m as [|[k g] m IH]; simpl; intros H; auto.
  apply andb_prop in H. destruct H as [Hk Hm].
  destruct (String.eqb k sp) eqn:E; simpl.
  - rewrite E. rewrite (IH Hm). reflexivity.
  - simpl in Hk.
    destruct (declare_reply rr k) as [rep|]; [|discriminate].
    rewrite E. simpl. rewrite (IH Hm). reflexivity.
Qed.

(** Writing the speaker's own entry changes neither who declares nor what
    they answer. *)
Lemma answered_set rr (m : AgentGroups) (k : string) (g : AgentGroup) :
  answered rr k (mapping_set m k g) = answered rr k m.
Proof.
  induction m as [|[k' g'] m IH]; simpl.
  - now rewrite String.eqb_refl.
  - destruct (String.eqb k' k) eqn:E; simpl; rewrite E; simpl; auto.
    now rewrite IH.
Qed.

Lemma responses_set rr (m : AgentGroups) (k : string) (g : AgentGroup) :
  responses rr k (mapping_set m k g) = responses rr k m.
Proof.
  induction m as [|[k' g'] m IH]; simpl.
  - now rewrite String.eqb_refl.
  - destruct (String.eqb k' k) eqn:E; simpl; rewrite E; auto.
    destruct (declare_reply rr k'); now rewrite IH.
Qed.

(** ** The decide step of a round, in closed form *)

Lemma collaborateRound_decide ups r q p ds groups rr group rep :
  AgentGroups_get groups r = Some group ->
  propose_reply rr = Some rep ->
  answered rr (name r) groups = true ->
  collaborateRound (collaborate_state ups (r :: q) p ds) groups rr =
  match objections_of rr r groups with
  | [] => Ok (Some (accepted_update q r (parsed rep) ds),
              groups_accepted ups p rr r group rep groups)
  | objs => Ok (Some (rejected_update q p ds
                        (divergence_of r (parsed rep) objs)),
                groups_declared ups p rr r group rep groups)
  end.
Proof.
  intros Hget Hrep Hans.
  unfold collaborateRound, collaborate_state. simpl.
  unfold AgentGroups_get in Hget. unfold AgentGroups_get. rewrite Hget, Hrep.
  simpl.
  rewrite declare_others_ok by now rewrite answered_set.
  simpl.
  rewrite update_others_declared by now rewrite answered_set.
  simpl. rewrite responses_set.
  unfold objections_of.
  destruct (collect_objections (responses rr (name r) groups)); reflexivity.
Qed.

(** A round with a speaker returns only if the speaker has a group and
    every call was answered. *)
Lemma collaborateRound_returns ups r q p ds groups rr x :
  collaborateRound (collaborate_state ups (r :: q) p ds) groups rr = Ok x ->
  exists group rep,
    AgentGroups_get groups r = Some group /\
    propose_reply rr = Some rep /\
    answered rr (name r) groups = true.
Proof.
  unfold collaborateRound, collaborate_state, AgentGroups_split,
    AgentGroups_get.
  simpl. intros H.
  destruct (mapping_get groups (name r)) as [group|]; [|discriminate].
  destruct (propose_reply rr) as [rep|]; [|discriminate].
  simpl in H. exists group, rep. repeat split.
  match type of H with
  | context [declare_others ?i ?rr ?sp ?m] =>
      destruct (declare_others i rr sp m) as [y|] eqn:D; [|discriminate]
  end.
  apply declare_others_answered in D. now rewrite answered_set in D.
Qed.

Lemma collaborateRound_empty ups p ds groups rr :
  collaborateRound (collaborate_state ups [] p ds) groups rr =
  Ok (Some (feedback_update p ds), groups).
Proof. reflexivity. Qed.

(** Whatever a round with a speaker returns is one of the two Collaborate
    dictionaries. *)
Lemma collaborateRound_speaker_shape ups r q p ds groups rr x :
  collaborateRound (collaborate_state ups (r :: q) p ds) groups rr = Ok x ->
  exists rep,
    propose_reply rr = Some rep /\
    ((objections_of rr r groups = [] /\
      fst x = Some (accepted_update q r (parsed rep) ds)) \/
     (objections_of rr r groups <> [] /\
      fst x = Some (rejected_update q p ds
                      (divergence_of r (parsed rep)
                         (objections_of rr r groups))))).
Proof.
  intros H.
  destruct (collaborateRound_returns _ _ _ _ _ _ _ _ H)
    as (group & rep & Hget & Hrep & Hans).
  rewrite (collaborateRound_decide _ _ _ _ _ _ _ _ _ Hget Hrep Hans) in H.
  exists rep. split; [exact Hrep|].
  destruct (objections_of rr r groups) as [|o objs] eqn:E.
  - left. split; [reflexivity|]. now inversion H.
  - right. split; [discriminate|]. now inversion H.
Qed.

(* --------------------------------------------------------------------- *)
(** ** The termination law of the Collaborate stage *)
(* --------------------------------------------------------------------- *)



(* --------------------------------------------------------------------- *)
(** ** The unanimity law *)
(* --------------------------------------------------------------------- *)




(* --------------------------------------------------------------------- *)
(** ** Who commits to memory *)
(* --------------------------------------------------------------------- *)



Lemma groups_declared_speaker ups p rr r group rep groups :
  mapping_get (groups_declared ups p rr r group rep groups) (name r) =
  Some (set_propose group
          (invoked (propose group) (propose_msg ups p) (ai rep))).
Proof.
  unfold groups_declared.
  rewrite mapping_get_map by apply committed_entry_key.
  rewrite mapping_get_set_eq. simpl. now rewrite String.eqb_refl.
Qed.



(* --------------------------------------------------------------------- *)
(** ** Sequences of Collaborate rounds *)
(* --------------------------------------------------------------------- *)

(** A round that returns a dictionary ran on a Collaborate state. *)
Lemma collaborateRound_Some_state st groups rr u groups' :
  collaborateRound st groups rr = Ok (Some u, groups') ->
  exists q p ds, st = collaborate_state (user_preferences st) q p ds.
Proof.
  destruct st as [ups sg pl]. unfold collaborateRound. simpl.
  destruct sg; simpl; try discriminate.
  destruct pl as [[q p ds]| | |]; try discriminate.
  intros _. exists q, p, ds. reflexivity.
Qed.

(** The three things a pass can be: the hand-over to UserFeedback on an
    empty queue, an acceptance, a rejection. *)
Lemma round_step_cases st groups st' groups' :
  round_step st groups st' groups' ->
  exists ups q p ds,
    st = collaborate_state ups q p ds /\
    ((q = [] /\ st' = feedback_state ups p ds) \/
     (exists r q' improved,
        q = r :: q' /\
        st' = collaborate_state ups (q' ++ [r])
                (Some (FResponse improved)) ds) \/
     (exists r q' d,
        q = r :: q' /\ st' = collaborate_state ups q' p (ds ++ [d]))).
Proof.
  intros [st0 g rr u g' st1 Hrun Hupd].
  destruct (collaborateRound_Some_state _ _ _ _ _ Hrun) as (q & p & ds & Hst).
  exists (user_preferences st0), q, p, ds. split; [exact Hst|].
  rewrite Hst in Hrun. rewrite Hst in Hupd. destruct q as [|r q].
  - left. rewrite collaborateRound_empty in Hrun. inversion Hrun; subst u.
    unfold apply_update in Hupd. simpl in Hupd. inversion Hupd.
    split; reflexivity.
  - right.
    destruct (collaborateRound_speaker_shape _ _ _ _ _ _ _ _ Hrun)
      as (rep & _ & [[_ Hx] | [_ Hx]]); simpl in Hx; inversion Hx; subst u;
      unfold apply_update in Hupd; simpl in Hupd; inversion Hupd.
    + left. exists r, q, (parsed rep). split; reflexivity.
    + right. exists r, q. eexists. split; reflexivity.
Qed.





(* --------------------------------------------------------------------- *)
(** ** The queue invariant *)
(* --------------------------------------------------------------------- *)




(* --------------------------------------------------------------------- *)
(** ** The rotation law *)
(* --------------------------------------------------------------------- *)




(* --------------------------------------------------------------------- *)
(** ** A feedback round without a floor *)
(* --------------------------------------------------------------------- *)

(** A pass that makes the log grow is a rejection: the floor stays. *)
Lemma round_step_diverged st groups st' groups' :
  round_step st groups st' groups' ->
  divergences_of st' <> divergences_of st ->
  stage st' = Collaborate /\
  user_preferences st' = user_preferences st /\
  proposal_of st' = proposal_of st.
Proof.
  intros H Hd.
  destruct (round_step_cases _ _ _ _ H) as (ups & q & p & ds & -> & Hc).
  destruct Hc as [[-> ->] | [(r & q' & im & -> & ->) | (r & q' & d & -> & ->)]];
    unfold divergences_of, proposal_of in *; simpl in *;
    try congruence; auto.
Qed.

(** After diverging passes only, the state is a Collaborate state whose
    floor is the one the passes started from. *)
Lemma diverging_rounds_floor st groups st' groups' :
  diverging_rounds st groups st' groups' ->
  stage st = Collaborate ->
  stage st' = Collaborate /\
  user_preferences st' = user_preferences st /\
  proposal_of st' = proposal_of st.
Proof.
  induction 1 as [|st g st1 g1 st2 g2 _ IH Hstep Hd]; intros Hs; auto.
  destruct (IH Hs) as (_ & Hu & Hp).
  destruct (round_step_diverged _ _ _ _ Hstep Hd) as (Hs2 & Hu2 & Hp2).
  repeat split; congruence.
Qed.

(** After diverging passes only from the initial state, the state is a
    Collaborate state without a floor and without preferences. *)
Lemma diverging_rounds_state input st groups :
  diverging_rounds (init_state input) (AgentGroups_init input) st groups ->
  exists q ds, st = collaborate_state [] q None ds.
Proof.
  intros Hr.
  remember (init_state input) as st0 eqn:E0.
  remember (AgentGroups_init input) as g0 eqn:Eg.
  induction Hr as [|st g st1 g1 st2 g2 _ IH Hstep Hd].
  - subst. exists input, []. reflexivity.
  - destruct (IH E0 Eg) as (q & ds & ->).
    destruct (round_step_cases _ _ _ _ Hstep)
      as (ups & q0 & p0 & ds0 & E & Hc).
    injection E as <- <- <- <-.
    destruct Hc as [[-> ->] | [(r & q' & im & -> & ->) | (r & q' & d & -> & ->)]].
    + exfalso. now apply Hd.
    + exfalso. now apply Hd.
    + eexists; eexists; reflexivity.
Qed.

(** The feedback round never looks at the floor it is handed, nor at the
    preferences gathered before. *)
Lemma userFeedbackRound_loop ups p ds inputs :
  userFeedbackRound (feedback_state ups p ds) inputs =
  feedback_loop ds [] inputs.
Proof. reflexivity. Qed.

(** C10.  When the queue runs empty after passes that all ended in a
    divergence (or after no pass at all), the Collaborate round hands
    over to UserFeedback with [None] as the floor; the feedback round on
    that state runs its loop over the divergences exactly as it would
    with a floor, and an immediate ['q'] ends it normally. *)
Theorem feedback_without_floor (input : list Role) (st : GraphState)
    (groups : AgentGroups) (rr : RoundReplies) :
  diverging_rounds (init_state input) (AgentGroups_init input) st groups ->
  queue_of st = [] ->
  collaborateRound st groups rr =
    Ok (Some (feedback_update None (divergences_of st)), groups) /\
  apply_update st (feedback_update None (divergences_of st)) =
    Ok (feedback_state [] None (divergences_of st)) /\
  (forall inputs p,
     userFeedbackRound (feedback_state [] None (divergences_of st)) inputs =
     userFeedbackRound (feedback_state [] p (divergences_of st)) inputs) /\
  (forall inputs,
     userFeedbackRound (feedback_state [] None (divergences_of st))
       ("q" :: inputs) =
     (Ok {| upd_user_preferences := None;
            upd_stage := End;
            upd_state := PEnd {| proposals := [] |} |}, inputs)).
Proof.
  intros Hr Hq.
  destruct (diverging_rounds_state _ _ _ Hr) as (q & ds & ->).
  unfold queue_of in Hq. simpl in Hq. subst q.
  repeat split.
Qed.

Lemma feedback_without_floor_witness :
  exists st groups,
    diverging_rounds (init_state [Helpful; Honest])
      (AgentGroups_init [Helpful; Honest]) st groups /\
    List.length (divergences_of st) = 2%nat /\
    collaborateRound st groups all_object =
      Ok (Some (feedback_update None (divergences_of st)), groups) /\
    userFeedbackRound (feedback_state [] None (divergences_of st)) ["q"] =
      (Ok {| upd_user_preferences := None;
             upd_stage := End;
             upd_state := PEnd {| proposals := [] |} |}, []).
Proof.
  epose proof (round_step_intro (init_state [Helpful; Honest])
                 (AgentGroups_init [Helpful; Honest]) all_object
                 _ _ _ eq_refl eq_refl) as H1.
  match type of H1 with
  | round_step _ _ ?s ?g =>
      epose proof (round_step_intro s g all_object _ _ _ eq_refl eq_refl) as H2
  end.
  epose proof (diverging_step _ _ _ _ _ _
                 (diverging_step _ _ _ _ _ _ (diverging_refl _ _) H1 _)
                 H2 _) as Hr.
  destruct (feedback_without_floor _ _ _ all_object Hr eq_refl)
    as (Hrun & _ & _ & Hquit).
  eexists; eexists. split; [exact Hr|]. split; [reflexivity|].
  split; [exact Hrun|]. apply Hquit.
  Unshelve.
  - cbv. discriminate.
  - cbv. discriminate.
Defined.

(* --------------------------------------------------------------------- *)
(** ** The feedback loop *)
(* --------------------------------------------------------------------- *)

Lemma values_setitem_fresh {V : Type} (d : Py.dict V) (k : Z) (v : V) :
  Py.contains d k = false ->
  Py.values (Py.setitem d k v) = Py.values d ++ [v].
Proof.
  unfold Py.values. induction d as [|[k' v'] d IH]; simpl; intros H; auto.
  apply orb_false_elim in H. destruct H as [Hk Hd].
  rewrite Hk. simpl. now rewrite IH.
Qed.

(** Lines the loop answers with a new prompt, leaving [selected] alone. *)



Lemma feedback_loop_already_selected ds selected line rest :
  Py.isnumeric line = true ->
  Py.contains selected (Py.int line) = true ->
  feedback_loop ds selected (line :: rest) = feedback_loop ds selected rest.
Proof.
  intros Hn Hin. simpl. rewrite Hn. simpl. rewrite Hin.
  now destruct (Py.int line >? Py.len ds).
Qed.

(** On ['q'] the loop returns the proposals of what [selected] held when
    the loop was entered followed by those of the preferences recorded
    since. *)
Lemma feedback_loop_quit ds inputs :
  forall selected u rest,
    feedback_loop ds selected inputs = (Ok u, rest) ->
    upd_stage u = End ->
    u = {| upd_user_preferences := None;
           upd_stage := End;
           upd_state := PEnd
             {| proposals :=
                  map Preference_proposal
                    (Py.values selected ++ recorded ds selected inputs) |} |}.
Proof.
  remember (List.length inputs) as n eqn:En.
  assert (Hle : (List.length inputs <= n)%nat) by lia. clear En.
  revert inputs Hle.
  induction n as [|n IH]; intros inputs Hle selected u rest H Hend.
  - destruct inputs; simpl in Hle; [|lia]. discriminate.
  - destruct inputs as [|line inputs]; [discriminate|].
    simpl in Hle. simpl in H. simpl.
    destruct (negb (Py.isnumeric line)).
    + destruct (String.eqb (Py.strip line) "c").
      { inversion H; subst. discriminate. }
      destruct (String.eqb (Py.strip line) "q").
      { inversion H; subst. now rewrite app_nil_r. }
      exact (IH inputs ltac:(lia) _ _ _ H Hend).
    + destruct (Py.int line >? Py.len ds).
      { exact (IH inputs ltac:(lia) _ _ _ H Hend). }
      destruct (Py.contains selected (Py.int line)) eqn:Hin.
      { exact (IH inputs ltac:(lia) _ _ _ H Hend). }
      destruct (Py.getitem ds (Py.int line - 1)) as [d|e]; [|discriminate].
      destruct inputs as [|reason inputs]; [discriminate|].
      simpl in Hle.
      rewrite (IH inputs ltac:(lia) _ _ _ H Hend).
      rewrite (values_setitem_fresh _ _ _ Hin).
      now rewrite <- app_assoc.
Qed.




(** C5 (the code departs from it).  The line ["0"] is numeric, is not
    above the number of divergences and is not yet selected, so the loop
    goes on to [divergences[-1]]: with at least one divergence the last
    one is recorded under the key 0 and the reason line is consumed; with
    none the round ends in [IndexError]. *)
Theorem feedback_index_zero
    (ds : list Divergence) (d : Divergence) (reason : string)
    (rest : list string) :
  feedback_loop (ds ++ [d]) [] ("0" :: reason :: rest) =
  feedback_loop (ds ++ [d])
    [(0, {| Preference_proposal := Divergence_proposal d;
            Preference_reason := reason_or_None reason |})] rest /\
  feedback_loop [] [] ("0" :: rest) = (Raise IndexError, rest) /\
  userFeedbackRound (feedback_state [] None [d1; d2]) ["0"; ""; "q"] =
  (Ok {| upd_user_preferences := None;
         upd_stage := End;
         upd_state := PEnd {| proposals := [Divergence_proposal d2] |} |},
   []).
Proof.
  split; [|split; reflexivity].
  assert (Hget : Py.getitem (ds ++ [d]) (-1) = Ok d).
  { unfold Py.getitem, Py.len. cbv zeta. change (-1 <? 0) with true.
    cbv iota. rewrite length_app. simpl List.length.
    replace (Z.of_nat (List.length ds + 1) + -1) with (Z.of_nat (List.length ds))
      by lia.
    destruct (Z.of_nat (List.length ds) <? 0) eqn:E.
    - apply Z.ltb_lt in E. lia.
    - rewrite Nat2Z.id. rewrite nth_error_app2 by lia.
      now rewrite Nat.sub_diag. }
  assert (Hlen : (0 >? Py.len (ds ++ [d])) = false).
  { unfold Py.len. destruct (0 >? Z.of_nat (List.length (ds ++ [d]))) eqn:E; auto.
    apply Z.gtb_gt in E. lia. }
  cbn [feedback_loop].
  change (Py.isnumeric "0") with true. change (Py.int "0") with 0.
  cbn [negb]. rewrite Hlen. cbn [Py.contains existsb].
  change (0 - 1) with (-1). rewrite Hget. reflexivity.
Qed.

(* --------------------------------------------------------------------- *)
(** ** The Debate node *)
(* --------------------------------------------------------------------- *)

(** C2 (the code departs from it).  The Debate round returns its payload
    untouched but with the stage [Debate], not [Collaborate]; the graph
    state is therefore unchanged by the merge, and the Collaborate node,
    which the graph runs next, refuses it. *)
Theorem debateRound_keeps_Debate
    (ups : list Preference) (pl : Payload) (groups : AgentGroups)
    (rr : RoundReplies) :
  let st := {| user_preferences := ups; stage := Debate; state := pl |} in
  let u := {| upd_user_preferences := None;
              upd_stage := Debate;
              upd_state := pl |} in
  debateRound st groups = Ok u /\
  apply_update st u = Ok st /\
  next_node NDebate st = Ok (Some NCollaborate) /\
  collaborateRound st groups rr = Raise (ValueError "Unexpected stage").
Proof. repeat split. Qed.

(* --------------------------------------------------------------------- *)
(** ** The entry points *)
(* --------------------------------------------------------------------- *)

(** The graph stops only out of the UserFeedback node, in the End stage,
    with the payload the feedback round built on ['q']. *)
Lemma graph_run_End limit :
  forall step n st groups llm inputs st',
    graph_run limit step n st groups llm inputs = Ok st' ->
    stage st' = End /\ exists e, state st' = PEnd e.
Proof.
  induction limit as [|limit IH]; intros step n st groups llm inputs st' H;
    [discriminate|].
  cbn [graph_run] in H.
  match type of H with
  | bind ?b _ = _ => destruct b as [[[st1 g1] in1]|] eqn:Hnode; [|discriminate]
  end.
  cbn [bind] in H.
  destruct (next_node n st1) as [[n'|]|] eqn:Hnext; cbn [bind] in H;
    [eapply IH; exact H | | discriminate].
  inversion H; subst st'. clear H.
  destruct n; simpl in Hnext.
  - destruct (stage st1); discriminate.
  - discriminate.
  - destruct (stage st1) eqn:Hs; try discriminate.
    split; [reflexivity|].
    destruct (userFeedbackRound st inputs) as [[u|] in2] eqn:Hfb;
      [|discriminate].
    cbn [bind] in Hnode.
    destruct (apply_update st u) as [st2|] eqn:Hupd; [|discriminate].
    cbn [bind] in Hnode. inversion Hnode; subst st2 g1 in1. clear Hnode.
    unfold apply_update in Hupd.
    destruct (upd_user_preferences u) eqn:Hups; [discriminate|].
    cbn [bind] in Hupd. inversion Hupd; subst st1. simpl in *.
    clear Hupd.
    unfold userFeedbackRound in Hfb.
    destruct (negb (Stage_eqb (stage st) UserFeedback)); [discriminate|].
    assert (Hloop : forall ds, feedback_loop ds [] inputs = (Ok u, in2) ->
                               exists e, upd_state u = PEnd e).
    { intros ds Hl.
      rewrite (feedback_loop_quit ds inputs [] u in2 Hl Hs).
      eexists. reflexivity. }
    destruct (state st); try discriminate; eapply Hloop; exact Hfb.
Qed.

(** [ainvoke] returns the proposals of the End payload the graph stopped
    with. *)
Lemma ainvoke_returns input limit llm inputs ps :
  ainvoke input limit llm inputs = Ok ps ->
  exists st,
    graph_run limit 0 NCollaborate (init_state input)
      (AgentGroups_init input) llm inputs = Ok st /\
    stage st = End /\
    state st = PEnd {| proposals := ps |}.
Proof.
  unfold ainvoke. intros H.
  destruct (graph_run limit 0 NCollaborate (init_state input)
              (AgentGroups_init input) llm inputs) as [st|] eqn:Hrun;
    [|discriminate].
  cbn [bind] in H. exists st. split; [reflexivity|].
  destruct (graph_run_End _ _ _ _ _ _ _ _ Hrun) as [Hs [e He]].
  split; [exact Hs|]. rewrite He in H. inversion H. rewrite He.
  now destruct e.
Qed.

(** C9 (the code departs from it).  [invoke] runs [ainvoke] and drops its
    result: whenever [ainvoke] returns the list of proposals, [invoke]
    returns [None]. *)
Theorem invoke_drops_result
    (input : list Role) (recursion_limit : nat)
    (llm : nat -> RoundReplies) (inputs : list string) :
  invoke input recursion_limit llm inputs =
    match ainvoke input recursion_limit llm inputs with
    | Ok _ => Ok None
    | Raise e => Raise e
    end /\
  ainvoke [Helpful; Honest] 25 (fun _ => all_object) ["1"; "Y"; "q"] =
    Ok [ {| Proposal_role := Helpful; Proposal_proposal := "P1" |} ] /\
  invoke [Helpful; Honest] 25 (fun _ => all_object) ["1"; "Y"; "q"] = Ok None.
Proof.
  split; [|split; reflexivity].
  unfold invoke. now destruct (ainvoke input recursion_limit llm inputs).
Qed.


(* ===================================================================== *)
(** * Further properties of the code *)
(* ===================================================================== *)

(* --------------------------------------------------------------------- *)
(** ** The life cycle of an agent's pending exchange *)
(* --------------------------------------------------------------------- *)

(** X1.  [update] needs a pending exchange and uses it up: on an agent
    that was just constructed it raises, and after an [update] that went
    through, a second [update] without an [invoke] in between raises as
    well, the memory having grown by exactly the two messages of the
    exchange. *)
Theorem Agent_update_consumes (a a' : Agent) :
  Agent_update a = Ok a' ->
  (exists h r, temp a = Some (h, r) /\ memory a' = memory a ++ [h; r]) /\
  Agent_update a' = Raise (ValueError "please invoke first before update") /\
  Agent_update Agent_init =
    Raise (ValueError "please invoke first before update").
Proof.
  unfold Agent_update. destruct (temp a) as [[h r]|] eqn:E; [|discriminate].
  intros H. inversion H; subst a'. simpl.
  split; [exists h, r; split; reflexivity|]. split; reflexivity.
Qed.

Lemma Agent_update_consumes_witness :
  Agent_update
    (committed Agent_init (HumanPropose (mkProposeInvocation None [])) "raw") =
  Raise (ValueError "please invoke first before update").
Proof.
  apply (Agent_update_consumes
           (invoked Agent_init (HumanPropose (mkProposeInvocation None [])) "raw")
           _ eq_refl).
Defined.

(** X2.  An exchange that was not committed is lost at the next [invoke]:
    after two calls and one [update] the memory holds the second exchange
    only, whatever the first one was. *)
Theorem Agent_invoke_overwrites {R : Type} (a a1 a2 : Agent)
    (h1 h2 : BaseMessage) (r1 r2 : Reply R) (x1 x2 : R) :
  Agent_invoke a h1 (Some r1) = Ok (a1, x1) ->
  Agent_invoke a1 h2 (Some r2) = Ok (a2, x2) ->
  Agent_update a2 =
    Ok {| memory := memory a ++ [h2; AIMessage (ai r2)]; temp := None |} /\
  x2 = parsed r2.
Proof.
  intros H1 H2. rewrite Agent_invoke_Some in H1. inversion H1; subst a1 x1.
  rewrite Agent_invoke_Some in H2. inversion H2; subst a2 x2.
  split; reflexivity.
Qed.

Lemma Agent_invoke_overwrites_witness :
  Agent_update
    (invoked
       (invoked Agent_init (HumanPropose (mkProposeInvocation None [])) "one")
       (HumanPropose (mkProposeInvocation None [])) "two") =
  Ok {| memory := [HumanPropose (mkProposeInvocation None []); AIMessage "two"];
        temp := None |}.
Proof.
  apply (Agent_invoke_overwrites Agent_init _ _
           (HumanPropose (mkProposeInvocation None []))
           (HumanPropose (mkProposeInvocation None []))
           (mkReply "one" (mkProposeResponse "P1"))
           (mkReply "two" (mkProposeResponse "P2"))
           (mkProposeResponse "P1") (mkProposeResponse "P2")
           eq_refl eq_refl).
Defined.

(* --------------------------------------------------------------------- *)
(** ** Building and reading the mapping of groups *)
(* --------------------------------------------------------------------- *)

Lemma mapping_get_set (m : AgentGroups) (k k0 : string) (g : AgentGroup) :
  mapping_get (mapping_set m k g) k0 =
  if String.eqb k k0 then Some g else mapping_get m k0.
Proof.
  destruct (String.eqb k k0) eqn:E.
  - apply String.eqb_eq in E. subst k0. apply mapping_get_set_eq.
  - apply String.eqb_neq in E. apply mapping_get_set_ne. congruence.
Qed.

Lemma mapping_get_In (m : AgentGroups) (k : string) :
  In k (map fst m) <-> exists g, mapping_get m k = Some g.
Proof.
  induction m as [|[k' g'] m IH]; simpl.
  - split; [contradiction | intros [g H]; discriminate].
  - destruct (String.eqb k' k) eqn:E.
    + apply String.eqb_eq in E. split; eauto.
    + apply String.eqb_neq in E. rewrite <- IH. tauto.
Qed.


Lemma mapping_set_keys_In (m : AgentGroups) (k x : string) (g : AgentGroup) :
  In x (map fst (mapping_set m k g)) <-> x = k \/ In x (map fst m).
Proof.
  induction m as [|[k' g'] m IH]; simpl.
  - intuition congruence.
  - destruct (String.eqb k' k) eqn:E; simpl.
    + apply String.eqb_eq in E. subst k'. intuition congruence.
    + rewrite IH. intuition congruence.
Qed.

Lemma mapping_set_keys_NoDup (m : AgentGroups) (k : string) (g : AgentGroup) :
  NoDup (map fst m) -> NoDup (map fst (mapping_set m k g)).
Proof.
  induction m as [|[k' g'] m IH]; simpl; intros H.
  - constructor; [intros []|constructor].
  - inversion H as [|? ? Hn Hm]; subst.
    destruct (String.eqb k' k) eqn:E; simpl.
    + constructor; assumption.
    + constructor; [|now apply IH].
      rewrite mapping_set_keys_In. apply String.eqb_neq in E.
      intros [Hx | Hx]; [congruence | contradiction].
Qed.

Lemma keyed_by_name_set (m : AgentGroups) (k : string) (g : AgentGroup) :
  keyed_by_name m -> k = name (role g) -> keyed_by_name (mapping_set m k g).
Proof.
  unfold keyed_by_name. intros Hm Hk.
  induction m as [|[k' g'] m IH]; simpl.
  - constructor; [exact Hk | constructor].
  - apply Forall_cons_iff in Hm. destruct Hm as [Hh Ht].
    destruct (String.eqb k' k) eqn:E.
    + apply String.eqb_eq in E. constructor; [simpl; congruence|exact Ht].
    + constructor; [exact Hh | now apply IH].
Qed.

(** A key already present keeps its place when it is written. *)
Lemma mapping_set_signature (m : AgentGroups) (k : string) (g0 g : AgentGroup) :
  mapping_get m k = Some g0 ->
  role g = role g0 ->
  signature (mapping_set m k g) = signature m.
Proof.
  unfold signature. induction m as [|[k' g'] m IH]; simpl; [discriminate|].
  destruct (String.eqb k' k) eqn:E; intros H Hr.
  - inversion H; subst g'. simpl. now rewrite Hr.
  - simpl. now rewrite IH.
Qed.

Lemma find_snoc {A : Type} (f : A -> bool) (l : list A) (x : A) :
  find f (l ++ [x]) =
  match find f l with
  | Some y => Some y
  | None => if f x then Some x else None
  end.
Proof.
  induction l as [|a l IH]; simpl; [reflexivity|].
  destruct (f a); [reflexivity | exact IH].
Qed.

Lemma init_fold_get (roles : list Role) :
  forall (m : AgentGroups) (k : string),
    mapping_get
      (fold_left (fun m r => mapping_set m (name r) (AgentGroup_init r))
         roles m) k =
    match last_named k roles with
    | Some r' => Some (AgentGroup_init r')
    | None => mapping_get m k
    end.
Proof.
  unfold last_named. induction roles as [|r roles IH]; intros m k; simpl.
  - reflexivity.
  - rewrite IH, find_snoc.
    destruct (find (fun r0 => String.eqb (name r0) k) (rev roles)); auto.
    rewrite mapping_get_set. now destruct (String.eqb (name r) k).
Qed.

Lemma init_fold_keys (roles : list Role) :
  forall (m : AgentGroups),
    NoDup (map fst m) -> keyed_by_name m ->
    NoDup (map fst (fold_left
                      (fun m r => mapping_set m (name r) (AgentGroup_init r))
                      roles m)) /\
    keyed_by_name (fold_left
                     (fun m r => mapping_set m (name r) (AgentGroup_init r))
                     roles m).
Proof.
  induction roles as [|r roles IH]; intros m Hn Hk; simpl; [tauto|].
  apply IH.
  - now apply mapping_set_keys_NoDup.
  - now apply keyed_by_name_set.
Qed.

Lemma last_named_Some (k : string) (roles : list Role) (r : Role) :
  last_named k roles = Some r -> name r = k /\ In r roles.
Proof.
  unfold last_named. intros H. apply find_some in H. destruct H as [Hin Hk].
  apply String.eqb_eq in Hk. split; [exact Hk|]. now apply in_rev.
Qed.

Lemma last_named_None (k : string) (roles : list Role) :
  last_named k roles = None <-> ~ In k (map name roles).
Proof.
  unfold last_named. split.
  - intros H Hin. apply in_map_iff in Hin. destruct Hin as (r & Hr & Hin).
    apply in_rev in Hin.
    apply (find_none _ _ H) in Hin. subst k.
    now rewrite String.eqb_refl in Hin.
  - intros H.
    destruct (find (fun r => String.eqb (name r) k) (rev roles)) as [r|] eqn:E;
      [|reflexivity].
    exfalso. apply H. apply find_some in E. destruct E as [Hin Hk].
    apply String.eqb_eq in Hk. subst k. apply in_map. now apply in_rev.
Qed.

Lemma last_named_unique (roles : list Role) (r : Role) :
  NoDup (map name roles) -> In r roles ->
  last_named (name r) roles = Some r.
Proof.
  intros Hnd Hin.
  destruct (last_named (name r) roles) as [r'|] eqn:E.
  - apply last_named_Some in E. destruct E as [Hname Hin'].
    f_equal.
    clear - Hnd Hin Hin' Hname.
    induction roles as [|a roles IH]; [contradiction|].
    simpl in Hnd. inversion Hnd as [|? ? Hna Hnd']; subst.
    destruct Hin as [-> | Hin], Hin' as [-> | Hin']; auto.
    + exfalso. apply Hna. rewrite <- Hname. now apply in_map.
    + exfalso. apply Hna. rewrite Hname. now apply in_map.
  - apply last_named_None in E. exfalso. apply E. now apply in_map.
Qed.

(** X3.  [AgentGroups.__init__] files one group per distinct role name:
    the keys of the mapping are pairwise distinct, they are exactly the
    names occurring in the role list, and each group sits under the name
    of its own role. *)
Theorem AgentGroups_init_keys (roles : list Role) :
  NoDup (map fst (AgentGroups_init roles)) /\
  keyed_by_name (AgentGroups_init roles) /\
  (forall k, In k (map fst (AgentGroups_init roles)) <->
             In k (map name roles)).
Proof.
  destruct (init_fold_keys roles [] (NoDup_nil _) (Forall_nil _)) as [Hn Hk].
  split; [exact Hn|]. split; [exact Hk|].
  intros k. rewrite mapping_get_In. unfold AgentGroups_init.
  split.
  - intros [g Hg]. rewrite init_fold_get in Hg.
    destruct (last_named k roles) as [r|] eqn:E; [|discriminate].
    apply last_named_Some in E. destruct E as [<- Hin]. now apply in_map.
  - intros Hin. rewrite init_fold_get.
    destruct (last_named k roles) as [r|] eqn:E; [eauto|].
    apply last_named_None in E. contradiction.
Qed.

(** X4.  [AgentGroups.get] on a freshly built mapping returns the group
    built for the last role of the list bearing the asked name, and
    [None] when no role bears it: a later role with the same name
    replaces an earlier one, and with pairwise distinct names every role
    of the list gets the group built for itself. *)
Theorem AgentGroups_init_get (roles : list Role) (r : Role) :
  AgentGroups_get (AgentGroups_init roles) r =
    option_map AgentGroup_init (last_named (name r) roles) /\
  (In r roles ->
   exists r', AgentGroups_get (AgentGroups_init roles) r =
                Some (AgentGroup_init r') /\
              name r' = name r /\ In r' roles) /\
  (~ In (name r) (map name roles) ->
   AgentGroups_get (AgentGroups_init roles) r = None) /\
  (NoDup (map name roles) -> In r roles ->
   AgentGroups_get (AgentGroups_init roles) r = Some (AgentGroup_init r)) /\
  (forall r0, name r0 = name r ->
     AgentGroups_get (AgentGroups_init (roles ++ [r0])) r =
     Some (AgentGroup_init r0)).
Proof.
  assert (Hget : forall rs,
             AgentGroups_get (AgentGroups_init rs) r =
             option_map AgentGroup_init (last_named (name r) rs)).
  { intros rs. unfold AgentGroups_get, AgentGroups_init.
    rewrite init_fold_get. now destruct (last_named (name r) rs). }
  split; [apply Hget|]. split; [|split; [|split]].
  - intros Hin. rewrite Hget.
    destruct (last_named (name r) roles) as [r'|] eqn:E.
    + apply last_named_Some in E. destruct E as [Hn Hi].
      exists r'. repeat split; assumption.
    + apply last_named_None in E. exfalso. apply E. now apply in_map.
  - intros Hnot. rewrite Hget.
    apply last_named_None in Hnot. now rewrite Hnot.
  - intros Hnd Hin. rewrite Hget. now rewrite last_named_unique.
  - intros r0 Hname. rewrite Hget. unfold last_named.
    rewrite rev_app_distr. simpl. rewrite Hname.
    now rewrite String.eqb_refl.
Qed.

Lemma AgentGroups_init_get_witness :
  AgentGroups_get (AgentGroups_init hhh) Honest = Some (AgentGroup_init Honest) /\
  AgentGroups_get (AgentGroups_init [Helpful; Honest]) Harmless = None /\
  AgentGroups_get
    (AgentGroups_init [Helpful; mkRole "other" "Helpful" "second"]) Helpful =
  Some (AgentGroup_init (mkRole "other" "Helpful" "second")).
Proof.
  split; [|split].
  - destruct (AgentGroups_init_get hhh Honest) as (_ & _ & _ & H & _).
    apply H.
    + repeat constructor; simpl; intuition discriminate.
    + right. left. reflexivity.
  - destruct (AgentGroups_init_get [Helpful; Honest] Harmless)
      as (_ & _ & H & _).
    apply H. simpl. intuition discriminate.
  - destruct (AgentGroups_init_get [Helpful] Helpful) as (_ & _ & _ & _ & H).
    apply (H (mkRole "other" "Helpful" "second")). reflexivity.
Defined.

(** X5.  [AgentGroups.split] on a mapping with pairwise distinct keys
    takes the speaker's group out and leaves all the others in their
    order: the others never hold the speaker's key, together with the
    speaker's entry they make up the mapping, and there is one entry
    less; without a group for the speaker the others are the whole
    mapping. *)
Theorem AgentGroups_split_partition (m : AgentGroups) (r : Role) :
  (forall kg, In kg (snd (AgentGroups_split m r)) <->
              In kg m /\ fst kg <> name r) /\
  (forall g, NoDup (map fst m) ->
     fst (AgentGroups_split m r) = Some g ->
     Permutation m ((name r, g) :: snd (AgentGroups_split m r)) /\
     S (List.length (snd (AgentGroups_split m r))) = List.length m) /\
  (fst (AgentGroups_split m r) = None -> snd (AgentGroups_split m r) = m).
Proof.
  unfold AgentGroups_split, AgentGroups_get, others_of. simpl.
  split; [|split].
  - intros kg. rewrite filter_In.
    destruct (String.eqb (fst kg) (name r)) eqn:E; simpl.
    + apply String.eqb_eq in E. intuition congruence.
    + apply String.eqb_neq in E. intuition congruence.
  - intros g Hnd Hget.
    assert (Hp : Permutation m
                   ((name r, g) ::
                    filter (fun kg => negb (String.eqb (fst kg) (name r))) m)).
    { induction m as [|[k' g'] m IH]; simpl in *; [discriminate|].
      inversion Hnd as [|? ? Hn Hm]; subst.
      destruct (String.eqb k' (name r)) eqn:E; simpl.
      - apply String.eqb_eq in E. subst k'. inversion Hget; subst g'.
        apply perm_skip.
        assert (Hf : forall l : AgentGroups,
                   ~ In (name r) (map fst l) ->
                   filter (fun kg => negb (String.eqb (fst kg) (name r))) l = l).
        { clear. induction l as [|[k g] l IHl]; simpl; intros H; auto.
          destruct (String.eqb k (name r)) eqn:E; simpl.
          - apply String.eqb_eq in E. exfalso. apply H. now left.
          - f_equal. apply IHl. tauto. }
        now rewrite Hf.
      - eapply perm_trans; [apply perm_skip, (IH Hm Hget)|]. apply perm_swap. }
    split; [exact Hp|]. apply Permutation_length in Hp. simpl in Hp. lia.
  - intros Hget.
    assert (Hnot : ~ In (name r) (map fst m)).
    { rewrite mapping_get_In. intros [g Hg]. congruence. }
    clear Hget. induction m as [|[k g] m IH]; simpl in *; auto.
    destruct (String.eqb k (name r)) eqn:E; simpl.
    + apply String.eqb_eq in E. exfalso. apply Hnot. now left.
    + f_equal. apply IH. tauto.
Qed.

Lemma AgentGroups_split_partition_witness :
  Permutation (AgentGroups_init hhh)
    ((name Honest, AgentGroup_init Honest) ::
     snd (AgentGroups_split (AgentGroups_init hhh) Honest)) /\
  S (List.length (snd (AgentGroups_split (AgentGroups_init hhh) Honest))) =
  List.length (AgentGroups_init hhh).
Proof.
  destruct (AgentGroups_split_partition (AgentGroups_init hhh) Honest)
    as (_ & H & _).
  apply (H (AgentGroup_init Honest)).
  - repeat constructor; simpl; intuition discriminate.
  - reflexivity.
Defined.

(* --------------------------------------------------------------------- *)
(** ** What Collaborate rounds keep *)
(* --------------------------------------------------------------------- *)

(** A pass through the Collaborate node, with all that determines it. *)
Lemma round_step_full st groups st' groups' :
  round_step st groups st' groups' ->
  exists ups q p ds,
    st = collaborate_state ups q p ds /\
    ((q = [] /\ st' = feedback_state ups p ds /\ groups' = groups) \/
     (exists r q' rr group rep,
        q = r :: q' /\
        AgentGroups_get groups r = Some group /\
        propose_reply rr = Some rep /\
        answered rr (name r) groups = true /\
        ((objections_of rr r groups = [] /\
          st' = collaborate_state ups (q' ++ [r])
                  (Some (FResponse (parsed rep))) ds /\
          groups' = groups_accepted ups p rr r group rep groups) \/
         (objections_of rr r groups <> [] /\
          st' = collaborate_state ups q' p
                  (ds ++ [divergence_of r (parsed rep)
                            (objections_of rr r groups)]) /\
          groups' = groups_declared ups p rr r group rep groups)))).
Proof.
  intros [st0 g rr u g' st1 Hrun Hupd].
  destruct (collaborateRound_Some_state _ _ _ _ _ Hrun) as (q & p & ds & Hst).
  exists (user_preferences st0), q, p, ds. split; [exact Hst|].
  rewrite Hst in Hrun, Hupd. destruct q as [|r q].
  - left. rewrite collaborateRound_empty in Hrun. inversion Hrun; subst u g'.
    unfold apply_update in Hupd. simpl in Hupd. inversion Hupd.
    repeat split.
  - right.
    destruct (collaborateRound_returns _ _ _ _ _ _ _ _ Hrun)
      as (group & rep & Hget & Hrep & Hans).
    rewrite (collaborateRound_decide _ _ _ _ _ _ _ _ _ Hget Hrep Hans) in Hrun.
    exists r, q, rr, group, rep. split; [reflexivity|].
    repeat (split; [assumption|]).
    destruct (objections_of rr r g) as [|o objs] eqn:E;
      inversion Hrun; subst u g'; unfold apply_update in Hupd;
      simpl in Hupd; inversion Hupd.
    + left. repeat split.
    + right. split; [discriminate|]. split; reflexivity.
Qed.

Lemma committed_entry_signature inv rr sp (m : AgentGroups) :
  signature (map (committed_entry inv rr sp) m) = signature m.
Proof.
  unfold signature. rewrite map_map. apply map_ext. intros [k g].
  unfold committed_entry. destruct (String.eqb k sp); [reflexivity|].
  now destruct (declare_reply rr k).
Qed.

Lemma groups_declared_signature ups p rr r group rep groups :
  AgentGroups_get groups r = Some group ->
  signature (groups_declared ups p rr r group rep groups) = signature groups.
Proof.
  intros Hget. unfold groups_declared. rewrite committed_entry_signature.
  now apply (mapping_set_signature _ _ group).
Qed.

Lemma groups_accepted_signature ups p rr r group rep groups :
  AgentGroups_get groups r = Some group ->
  signature (groups_accepted ups p rr r group rep groups) = signature groups.
Proof.
  intros Hget. unfold groups_accepted.
  rewrite (mapping_set_signature _ _ _ _ (groups_declared_speaker _ _ _ _ _ _ _))
    by reflexivity.
  now apply groups_declared_signature.
Qed.

Lemma round_step_signature st groups st' groups' :
  round_step st groups st' groups' -> signature groups' = signature groups.
Proof.
  intros H.
  destruct (round_step_full _ _ _ _ H) as (ups & q & p & ds & _ & Hc).
  destruct Hc as [(_ & _ & ->) |
                  (r & q' & rr & group & rep & _ & Hget & _ & _ &
                   [(_ & _ & ->) | (_ & _ & ->)])].
  - reflexivity.
  - now apply groups_accepted_signature.
  - now apply groups_declared_signature.
Qed.

Lemma rounds_signature st groups st' groups' :
  rounds st groups st' groups' -> signature groups' = signature groups.
Proof.
  induction 1 as [|st g st1 g1 st2 g2 _ IH Hstep]; [reflexivity|].
  rewrite <- IH. eapply round_step_signature; eassumption.
Qed.





Lemma keyed_by_name_signature (m m' : AgentGroups) :
  signature m' = signature m -> keyed_by_name m -> keyed_by_name m'.
Proof.
  unfold keyed_by_name. intros Hs Hm.
  assert (H : forall l : AgentGroups,
             Forall (fun kg => fst kg = name (role (snd kg))) l <->
             Forall (fun kr => fst kr = name (snd kr)) (signature l)).
  { intros l. unfold signature. rewrite Forall_map. reflexivity. }
  apply H. rewrite Hs. now apply H.
Qed.


(** The states Collaborate rounds lead to from the initial one. *)
Lemma rounds_from_init input st groups :
  rounds (init_state input) (AgentGroups_init input) st groups ->
  (exists q p ds, st = collaborate_state [] q p ds) \/
  (exists p ds, st = feedback_state [] p ds).
Proof.
  intros Hr.
  remember (init_state input) as st0 eqn:E0.
  remember (AgentGroups_init input) as g0 eqn:Eg.
  induction Hr as [|st g st1 g1 st2 g2 Hr IH Hstep].
  - subst. left. exists input, None, []. reflexivity.
  - destruct (round_step_cases _ _ _ _ Hstep)
      as (ups & q & p & ds & E & Hc).
    assert (Hu : ups = []).
    { destruct (IH E0 Eg) as [(q1 & p1 & ds1 & E1) | (p1 & ds1 & E1)];
        rewrite E1 in E; inversion E; reflexivity. }
    subst ups.
    destruct Hc as [[_ ->] | [(r & q' & im & _ & ->) | (r & q' & d & _ & ->)]];
      eauto.
Qed.



(* --------------------------------------------------------------------- *)
(** ** The log of divergences *)
(* --------------------------------------------------------------------- *)

Lemma rounds_permutation (input : list Role) (st : GraphState)
    (groups : AgentGroups) :
  rounds (init_state input) (AgentGroups_init input) st groups ->
  Permutation (proposers (divergences_of st) ++ queue_of st) input.
Proof.
  intros Hr.
  remember (init_state input) as st0 eqn:E0.
  remember (AgentGroups_init input) as g0 eqn:Eg.
  induction Hr as [|st g st1 g1 st2 g2 Hr IH Hstep].
  - subst. apply Permutation_refl.
  - specialize (IH E0 Eg).
    destruct (round_step_full _ _ _ _ Hstep) as (ups & q & p & ds & -> & Hc).
    unfold divergences_of, queue_of, proposers in *. simpl in *.
    destruct Hc as [(-> & -> & _) |
                    (r & q' & rr & group & rep & -> & _ & _ & _ &
                     [(_ & -> & _) | (_ & -> & _)])]; simpl.
    + exact IH.
    + eapply perm_trans; [|exact IH].
      apply Permutation_app_head, Permutation_sym, Permutation_cons_append.
    + rewrite map_app, <- app_assoc. exact IH.
Qed.

(** X8.  Roles are neither lost nor made up by Collaborate rounds: at any
    time the authors of the logged divergences followed by the queue are
    a rearrangement of the input role list.  When the rounds hand over to
    UserFeedback the log therefore holds exactly one divergence per input
    role, authored by that role. *)
Theorem roles_conserved (input : list Role) (st : GraphState)
    (groups : AgentGroups) :
  rounds (init_state input) (AgentGroups_init input) st groups ->
  Permutation (proposers (divergences_of st) ++ queue_of st) input /\
  (stage st = UserFeedback ->
   Permutation (proposers (divergences_of st)) input /\
   List.length (divergences_of st) = List.length input).
Proof.
  intros Hr. pose proof (rounds_permutation _ _ _ Hr) as Hp.
  split; [exact Hp|].
  intros Hs.
  destruct (rounds_from_init _ _ _ Hr) as [(q1 & p1 & ds1 & ->) | (p1 & ds1 & ->)];
    [discriminate|].
  unfold divergences_of, queue_of in *. simpl in *.
  rewrite app_nil_r in Hp. split; [exact Hp|].
  apply Permutation_length in Hp. unfold proposers in Hp.
  now rewrite length_map in Hp.
Qed.

Lemma roles_conserved_witness :
  exists st groups,
    rounds (init_state [Helpful; Honest])
      (AgentGroups_init [Helpful; Honest]) st groups /\
    stage st = UserFeedback /\
    Permutation (proposers (divergences_of st)) [Helpful; Honest].
Proof.
  epose proof (round_step_intro (init_state [Helpful; Honest])
                 (AgentGroups_init [Helpful; Honest]) all_object
                 _ _ _ eq_refl eq_refl) as H1.
  match type of H1 with
  | round_step _ _ ?s ?g =>
      epose proof (round_step_intro s g all_object _ _ _ eq_refl eq_refl) as H2
  end.
  match type of H2 with
  | round_step _ _ ?s ?g =>
      epose proof (round_step_intro s g all_object _ _ _ eq_refl eq_refl) as H3
  end.
  pose proof (rounds_step _ _ _ _ _ _
                (rounds_step _ _ _ _ _ _
                   (rounds_step _ _ _ _ _ _ (rounds_refl _ _) H1) H2) H3) as Hr.
  eexists; eexists. split; [exact Hr|]. split; [reflexivity|].
  exact (proj1 (proj2 (roles_conserved _ _ _ Hr) eq_refl)).
Defined.

Lemma objections_sound rr r (groups : AgentGroups) :
  keyed_by_name groups ->
  Forall (fun o => name (Objection_role o) <> name r)
    (objections_of rr r groups).
Proof.
  unfold objections_of, keyed_by_name.
  induction groups as [|[k g] m IH]; simpl; intros H; [constructor|].
  apply Forall_cons_iff in H. destruct H as [Hk Hm]. simpl in Hk.
  destruct (String.eqb k (name r)) eqn:E; [now apply IH|].
  destruct (declare_reply rr k) as [rep|]; [|now apply IH].
  simpl. destruct (objection (parsed rep)); [|now apply IH].
  constructor; [|now apply IH].
  simpl. apply String.eqb_neq in E. congruence.
Qed.

Lemma rounds_sound (input : list Role) (st : GraphState)
    (groups : AgentGroups) :
  rounds (init_state input) (AgentGroups_init input) st groups ->
  Forall sound_divergence (divergences_of st).
Proof.
  intros Hr.
  remember (init_state input) as st0 eqn:E0.
  remember (AgentGroups_init input) as g0 eqn:Eg.
  induction Hr as [|st g st1 g1 st2 g2 Hr IH Hstep].
  - subst. constructor.
  - specialize (IH E0 Eg).
    assert (Hkn : keyed_by_name g1).
    { apply (keyed_by_name_signature _ _ (rounds_signature _ _ _ _ Hr)).
      subst g. apply (init_fold_keys input [] (NoDup_nil _) (Forall_nil _)). }
    destruct (round_step_full _ _ _ _ Hstep) as (ups & q & p & ds & -> & Hc).
    unfold divergences_of in *. simpl in *.
    destruct Hc as [(-> & -> & _) |
                    (r & q' & rr & group & rep & -> & _ & _ & _ &
                     [(_ & -> & _) | (Hobj & -> & _)])]; simpl; auto.
    apply Forall_app. split; [exact IH|].
    constructor; [|constructor].
    split; [exact Hobj|]. simpl. now apply objections_sound.
Qed.

(** X9.  Every divergence in the log of a run started by [ainvoke] was
    really contested: it carries at least one objection, and none of its
    objections comes from a role bearing the author's name. *)
Theorem divergences_sound (input : list Role) (st : GraphState)
    (groups : AgentGroups) :
  rounds (init_state input) (AgentGroups_init input) st groups ->
  Forall sound_divergence (divergences_of st).
Proof. apply rounds_sound. Qed.

Lemma divergences_sound_witness :
  sound_divergence
    (divergence_of Helpful (mkProposeResponse "P1")
       [ {| Objection_role := Honest; Objection_reason := "X" |} ]).
Proof.
  refine (Forall_inv
            (divergences_sound [Helpful; Honest]
               (collaborate_state [] [Honest] None
                  [divergence_of Helpful (mkProposeResponse "P1")
                     [ {| Objection_role := Honest;
                          Objection_reason := "X" |} ]])
               (groups_declared [] None all_object Helpful
                  (AgentGroup_init Helpful)
                  (mkReply "raw P1" (mkProposeResponse "P1"))
                  (AgentGroups_init [Helpful; Honest])) _)).
  eapply rounds_step; [apply rounds_refl|].
  eapply (round_step_intro _ _ all_object); reflexivity.
Defined.

(** X10.  Collaborate rounds only ever append to the divergence log and
    never touch the user preferences: after any number of rounds the old
    log is a prefix of the new one and [user_preferences] is what it
    was. *)
Theorem log_append_only st groups st' groups' :
  rounds st groups st' groups' ->
  user_preferences st' = user_preferences st /\
  exists added, divergences_of st' = divergences_of st ++ added.
Proof.
  induction 1 as [|st g st1 g1 st2 g2 _ IH Hstep].
  - split; [reflexivity|]. exists []. now rewrite app_nil_r.
  - destruct IH as [Hu [added Hd]].
    destruct (round_step_cases _ _ _ _ Hstep) as (ups & q & p & ds & E & Hc).
    rewrite E in Hu, Hd. unfold divergences_of in *. simpl in *.
    destruct Hc as [[_ ->] | [(r & q' & im & _ & ->) | (r & q' & d & _ & ->)]];
      simpl; (split; [exact Hu|]).
    + exists added. exact Hd.
    + exists added. exact Hd.
    + exists (added ++ [d]). rewrite Hd. now rewrite app_assoc.
Qed.

Lemma log_append_only_witness :
  exists added,
    [d1; divergence_of Honest (mkProposeResponse "P1")
           [ {| Objection_role := Helpful; Objection_reason := "X" |} ]] =
    [d1] ++ added.
Proof.
  refine (proj2 (log_append_only
                   (collaborate_state [] [Honest] None [d1])
                   (AgentGroups_init [Helpful; Honest])
                   (collaborate_state [] [] None
                      [d1; divergence_of Honest (mkProposeResponse "P1")
                             [ {| Objection_role := Helpful;
                                  Objection_reason := "X" |} ]])
                   _ _)).
  eapply rounds_step; [apply rounds_refl|].
  eapply (round_step_intro _ _ all_object); reflexivity.
Defined.

(* --------------------------------------------------------------------- *)
(** ** More on the feedback loop *)
(* --------------------------------------------------------------------- *)

Lemma int_acc_nonneg (s : string) :
  forall acc, Py.all_digits s = true -> 0 <= acc -> 0 <= Py.int_acc acc s.
Proof.
  induction s as [|c s IH]; cbn [Py.all_digits Py.int_acc];
    intros acc Hd Hacc; [exact Hacc|].
  apply andb_prop in Hd. destruct Hd as [Hc Hs].
  apply IH; [exact Hs|].
  unfold Py.isdigit in Hc. cbv zeta in Hc.
  apply andb_prop in Hc. destruct Hc as [Hlo _].
  apply Nat.leb_le in Hlo. lia.
Qed.

Lemma int_nonneg (s : string) : Py.isnumeric s = true -> 0 <= Py.int s.
Proof.
  intros H. unfold Py.int. apply int_acc_nonneg; [|lia].
  destruct s; [discriminate | exact H].
Qed.


Lemma getitem_in_range {A : Type} (l : list A) (i : Z) :
  - Py.len l <= i < Py.len l -> exists x, Py.getitem l i = Ok x.
Proof.
  unfold Py.getitem, Py.len. cbv zeta. intros H.
  set (j := if i <? 0 then Z.of_nat (List.length l) + i else i).
  assert (Hj : 0 <= j < Z.of_nat (List.length l)).
  { unfold j. destruct (i <? 0) eqn:E.
    - apply Z.ltb_lt in E. lia.
    - apply Z.ltb_ge in E. lia. }
  destruct (j <? 0) eqn:E; [apply Z.ltb_lt in E; lia|].
  destruct (nth_error l (Z.to_nat j)) as [x|] eqn:En; [eauto|].
  apply nth_error_None in En. lia.
Qed.

Lemma contains_setitem {V : Type} (d : Py.dict V) (k : Z) (v : V) :
  Py.contains (Py.setitem d k v) k = true.
Proof.
  unfold Py.contains. induction d as [|[k' v'] d IH]; simpl.
  - now rewrite Z.eqb_refl.
  - destruct (k' =? k) eqn:E; simpl; rewrite E; simpl; auto.
Qed.



(** What the loop returns, where it stopped reading, and on which line. *)
Lemma feedback_loop_returns ds inputs :
  forall selected u rest,
    feedback_loop ds selected inputs = (Ok u, rest) ->
    exists pre line,
      inputs = pre ++ line :: rest /\
      Py.isnumeric line = false /\
      ((Py.strip line = "c" /\
        u = continue_update
              (Py.values selected ++ recorded ds selected inputs)) \/
       (Py.strip line = "q" /\
        u = quit_update
              (Py.values selected ++ recorded ds selected inputs))).
Proof.
  remember (List.length inputs) as n eqn:En.
  assert (Hle : (List.length inputs <= n)%nat) by lia. clear En.
  revert inputs Hle.
  induction n as [|n IH]; intros inputs Hle selected u rest H.
  - destruct inputs; simpl in Hle; [|lia]. discriminate.
  - destruct inputs as [|line inputs]; [discriminate|].
    simpl in Hle. simpl in H. simpl.
    destruct (Py.isnumeric line) eqn:Hnum; simpl in *.
    + destruct (Py.int line >? Py.len ds).
      { destruct (IH inputs ltac:(lia) _ _ _ H) as (pre & l & -> & Hl & Hc).
        exists (line :: pre), l. repeat split; assumption. }
      destruct (Py.contains selected (Py.int line)) eqn:Hin.
      { destruct (IH inputs ltac:(lia) _ _ _ H) as (pre & l & -> & Hl & Hc).
        exists (line :: pre), l. repeat split; assumption. }
      destruct (Py.getitem ds (Py.int line - 1)) as [d|e]; [|discriminate].
      destruct inputs as [|reason inputs]; [discriminate|].
      simpl in Hle.
      destruct (IH inputs ltac:(lia) _ _ _ H) as (pre & l & -> & Hl & Hc).
      exists (line :: reason :: pre), l.
      split; [reflexivity|]. split; [exact Hl|].
      rewrite (values_setitem_fresh _ _ _ Hin) in Hc.
      rewrite <- app_assoc in Hc. exact Hc.
    + destruct (String.eqb (Py.strip line) "c") eqn:Ec.
      { inversion H; subst. exists [], line. apply String.eqb_eq in Ec.
        split; [reflexivity|]. split; [exact Hnum|]. left.
        now rewrite app_nil_r. }
      destruct (String.eqb (Py.strip line) "q") eqn:Eq.
      { inversion H; subst. exists [], line. apply String.eqb_eq in Eq.
        split; [reflexivity|]. split; [exact Hnum|]. right.
        now rewrite app_nil_r. }
      destruct (IH inputs ltac:(lia) _ _ _ H) as (pre & l & -> & Hl & Hc).
      exists (line :: pre), l. repeat split; assumption.
Qed.

(** X11.  A feedback round that ends on ['c'] hands the graph exactly the
    preferences recorded in that loop, in the order they were recorded,
    with the stage [Debate] and an empty Debate payload: the floor and the
    divergence log do not survive it. *)
Theorem continue_output
    (ups : list Preference) (p : option Floor) (ds : list Divergence)
    (inputs : list string) (u : Update) (rest : list string) :
  userFeedbackRound (feedback_state ups p ds) inputs = (Ok u, rest) ->
  upd_stage u = Debate ->
  u = {| upd_user_preferences := Some (recorded ds [] inputs);
         upd_stage := Debate;
         upd_state := PDebate |}.
Proof.
  rewrite userFeedbackRound_loop. intros H Hs.
  destruct (feedback_loop_returns _ _ _ _ _ H)
    as (pre & line & _ & _ & [[_ ->] | [_ ->]]).
  - reflexivity.
  - discriminate.
Qed.

Lemma continue_output_witness :
  continue_update
    [ {| Preference_proposal := Divergence_proposal d2;
         Preference_reason := Some "Y" |};
      {| Preference_proposal := Divergence_proposal d1;
         Preference_reason := None |} ] =
  {| upd_user_preferences :=
       Some (recorded [d1; d2] [] ["2"; "Y"; "1"; ""; "c"]);
     upd_stage := Debate;
     upd_state := PDebate |}.
Proof.
  apply (continue_output [pref0] None [d1; d2] ["2"; "Y"; "1"; ""; "c"] _ []);
    reflexivity.
Defined.

(** X12.  The feedback round returns only when a command line is read: if
    it returns, some line that is not numeric and strips to ["c"] or
    ["q"] ended it, the stage is [Debate] for ["c"] and [End] for ["q"],
    and the lines left unread are exactly those after that line.  On
    running out of lines it raises [EOFError]. *)
Theorem feedback_returns_on_command
    (ups : list Preference) (p : option Floor) (ds : list Divergence)
    (inputs : list string) (u : Update) (rest : list string) :
  userFeedbackRound (feedback_state ups p ds) inputs = (Ok u, rest) ->
  (exists pre line,
     inputs = pre ++ line :: rest /\
     Py.isnumeric line = false /\
     ((Py.strip line = "c" /\ upd_stage u = Debate /\ upd_state u = PDebate) \/
      (Py.strip line = "q" /\ upd_stage u = End /\
       upd_user_preferences u = None))) /\
  userFeedbackRound (feedback_state ups p ds) [] = (Raise EOFError, []).
Proof.
  rewrite !userFeedbackRound_loop. intros H. split; [|reflexivity].
  destruct (feedback_loop_returns _ _ _ _ _ H)
    as (pre & line & Hin & Hnum & Hc).
  exists pre, line. split; [exact Hin|]. split; [exact Hnum|].
  destruct Hc as [[Hc ->] | [Hq ->]]; [left | right]; repeat split; assumption.
Qed.

Lemma feedback_returns_on_command_witness :
  exists pre line,
    ["bogus"; "9"; "1"; "q"; " q"; "left"] = pre ++ line :: ["left"] /\
    Py.isnumeric line = false.
Proof.
  destruct (feedback_returns_on_command [] None [d1]
              ["bogus"; "9"; "1"; "q"; " q"; "left"]
              (quit_update
                 [ {| Preference_proposal := Divergence_proposal d1;
                      Preference_reason := Some "q" |} ])
              ["left"] eq_refl) as [(pre & line & Hin & Hnum & _) _].
  exists pre, line. split; assumption.
Defined.






(** X14.  Asking again for an index that was just taken changes nothing:
    once a selection is accepted, a following line with the same number
    (written the same way or not) is skipped without reading a reason,
    so the loop goes on as if that line had not been typed. *)
Theorem repeated_selection_ignored
    (ds : list Divergence) (selected : Py.dict Preference)
    (line line' reason : string) (rest : list string) :
  Py.isnumeric line = true ->
  Py.isnumeric line' = true ->
  Py.int line' = Py.int line ->
  Py.int line <= Py.len ds ->
  ds <> [] ->
  Py.contains selected (Py.int line) = false ->
  feedback_loop ds selected (line :: reason :: line' :: rest) =
  feedback_loop ds selected (line :: reason :: rest).
Proof.
  intros Hn Hn' Heq Hle Hds Hin.
  assert (Hg : exists d, Py.getitem ds (Py.int line - 1) = Ok d).
  { apply getitem_in_range. pose proof (int_nonneg _ Hn) as H0.
    assert (0 < Py.len ds).
    { unfold Py.len. destruct ds; [congruence | simpl; lia]. }
    lia. }
  destruct Hg as [d Hg].
  cbn [feedback_loop]. rewrite Hn. cbn [negb].
  destruct (Z.gtb_spec (Py.int line) (Py.len ds)) as [Hgt|_]; [lia|].
  rewrite Hin, Hg.
  apply feedback_loop_already_selected; [exact Hn'|].
  rewrite Heq. apply contains_setitem.
Qed.

Lemma repeated_selection_ignored_witness :
  feedback_loop [d1; d2] [] ["2"; "Y"; "02"; "q"] =
  feedback_loop [d1; d2] [] ["2"; "Y"; "q"].
Proof.
  apply (repeated_selection_ignored [d1; d2] [] "2" "02" "Y" ["q"]).
  - reflexivity.
  - reflexivity.
  - reflexivity.
  - vm_compute. discriminate.
  - discriminate.
  - reflexivity.
Defined.

(* --------------------------------------------------------------------- *)
(** ** Whole runs *)
(* --------------------------------------------------------------------- *)

Lemma single_role_round r p g rr rep :
  propose_reply rr = Some rep ->
  collaborateRound (collaborate_state [] [r] p []) [(name r, g)] rr =
  Ok (Some (accepted_update [] r (parsed rep) []),
      [(name r,
        set_propose g (committed (propose g) (propose_msg [] p) (ai rep)))]).
Proof.
  intros Hrep.
  assert (Hget : AgentGroups_get [(name r, g)] r = Some g).
  { unfold AgentGroups_get. simpl. now rewrite String.eqb_refl. }
  assert (Hans : answered rr (name r) [(name r, g)] = true).
  { simpl. now rewrite String.eqb_refl. }
  rewrite (collaborateRound_decide _ _ _ _ _ _ _ _ _ Hget Hrep Hans).
  unfold objections_of, groups_accepted, groups_declared. simpl.
  rewrite !String.eqb_refl. simpl. rewrite !String.eqb_refl. reflexivity.
Qed.

Lemma single_role_silent r p g rr :
  propose_reply rr = None ->
  collaborateRound (collaborate_state [] [r] p []) [(name r, g)] rr =
  Raise AgentFailure.
Proof.
  intros Hrep. unfold collaborateRound, AgentGroups_split, AgentGroups_get.
  simpl. rewrite String.eqb_refl, Hrep. reflexivity.
Qed.

Lemma single_role_run r llm inputs limit :
  forall step p g,
    graph_run limit step NCollaborate (collaborate_state [] [r] p [])
      [(name r, g)] llm inputs =
    Raise (if proposes_until llm step limit
           then GraphRecursionError else AgentFailure).
Proof.
  induction limit as [|limit IH]; intros step p g; [reflexivity|].
  cbn [graph_run]. unfold proposes_until. cbn [seq forallb].
  destruct (propose_reply (llm step)) as [rep|] eqn:Hrep.
  - rewrite (single_role_round _ _ _ _ _ Hrep). cbn [bind is_some andb].
    unfold apply_update, accepted_update. cbn.
    apply IH.
  - rewrite (single_role_silent _ _ _ _ Hrep). reflexivity.
Qed.

(** X15.  A negotiation with a single role never comes to an end: with
    nobody to object every proposal is accepted and the role goes back
    into the queue, so [ainvoke] stops only at the recursion limit with
    [GraphRecursionError], or earlier with the failure of a propose
    call; it never returns proposals and never reads a line. *)
Theorem single_role_never_ends (r : Role) (recursion_limit : nat)
    (llm : nat -> RoundReplies) (inputs : list string) :
  ainvoke [r] recursion_limit llm inputs =
  Raise (if proposes_until llm 0 recursion_limit
         then GraphRecursionError else AgentFailure).
Proof.
  unfold ainvoke.
  change (init_state [r]) with (collaborate_state [] [r] None []).
  change (AgentGroups_init [r]) with [(name r, AgentGroup_init r)].
  now rewrite single_role_run.
Qed.

Lemma graph_run_feedback limit step ups p ds groups llm inputs stf :
  graph_run limit step NUserFeedback (feedback_state ups p ds) groups llm
    inputs = Ok stf ->
  (exists rest,
     feedback_loop ds [] inputs =
     (Ok (quit_update (recorded ds [] inputs)), rest)) /\
  state stf =
    PEnd {| proposals := map Preference_proposal (recorded ds [] inputs) |}.
Proof.
  destruct limit as [|limit]; [discriminate|].
  cbn [graph_run]. rewrite userFeedbackRound_loop.
  destruct (feedback_loop ds [] inputs) as [[u|e] rest] eqn:Hloop;
    [|discriminate].
  destruct (feedback_loop_returns _ _ _ _ _ Hloop)
    as (pre & line & _ & _ & [[_ Hu] | [_ Hu]]); subst u; simpl.
  - discriminate.
  - intros H. inversion H. simpl. split; [eauto | reflexivity].
Qed.

Lemma graph_run_collaborate input llm inputs limit :
  forall step st groups stf,
    rounds (init_state input) (AgentGroups_init input) st groups ->
    stage st = Collaborate ->
    graph_run limit step NCollaborate st groups llm inputs = Ok stf ->
    exists p ds groups',
      rounds (init_state input) (AgentGroups_init input)
        (feedback_state [] p ds) groups' /\
      (exists rest,
         feedback_loop ds [] inputs =
         (Ok (quit_update (recorded ds [] inputs)), rest)) /\
      state stf =
        PEnd {| proposals := map Preference_proposal (recorded ds [] inputs) |}.
Proof.
  induction limit as [|limit IH]; intros step st groups stf Hr Hs H;
    [discriminate|].
  cbn [graph_run] in H.
  destruct (collaborateRound st groups (llm step)) as [[ou g']|e] eqn:Hrun;
    [|discriminate].
  cbn [bind] in H.
  destruct (rounds_from_init _ _ _ Hr) as [(q & p & ds & Est) | (p & ds & Est)];
    [|rewrite Est in Hs; discriminate].
  assert (Hu : exists u, ou = Some u /\ upd_user_preferences u = None).
  { rewrite Est in Hrun. destruct q as [|r q].
    - rewrite collaborateRound_empty in Hrun. inversion Hrun.
      eexists. split; reflexivity.
    - destruct (collaborateRound_speaker_shape _ _ _ _ _ _ _ _ Hrun)
        as (rep & _ & [[_ Hx] | [_ Hx]]); simpl in Hx; subst ou;
        eexists; split; reflexivity. }
  destruct Hu as (u & -> & Hups).
  destruct (apply_update st u) as [st'|e] eqn:Hupd;
    [|unfold apply_update in Hupd; rewrite Hups in Hupd; discriminate].
  cbn [bind] in H.
  assert (Hr' : rounds (init_state input) (AgentGroups_init input) st' g').
  { eapply rounds_step; [exact Hr|]. econstructor; eassumption. }
  destruct (rounds_from_init _ _ _ Hr')
    as [(q1 & p1 & ds1 & E1) | (p1 & ds1 & E1)]; subst st'.
  - simpl in H. eapply IH; [exact Hr' | reflexivity | exact H].
  - simpl in H. exists p1, ds1, g'. split; [exact Hr'|].
    eapply graph_run_feedback. exact H.
Qed.

(** X16.  Whenever [ainvoke] returns, it returns the proposals of the
    preferences recorded in one feedback loop that read the input lines
    from the first one and was ended by ['q']; that loop was shown one
    divergence per input role, each authored by that role and each with
    at least one objection, none by a role of the author's name. *)
Theorem ainvoke_result (input : list Role) (recursion_limit : nat)
    (llm : nat -> RoundReplies) (inputs : list string) (ps : list Proposal) :
  ainvoke input recursion_limit llm inputs = Ok ps ->
  exists ds,
    Permutation (proposers ds) input /\
    Forall sound_divergence ds /\
    (exists rest,
       feedback_loop ds [] inputs =
       (Ok (quit_update (recorded ds [] inputs)), rest)) /\
    ps = map Preference_proposal (recorded ds [] inputs).
Proof.
  unfold ainvoke. intros H.
  destruct (graph_run recursion_limit 0 NCollaborate (init_state input)
              (AgentGroups_init input) llm inputs) as [stf|e] eqn:Hrun;
    [|discriminate].
  cbn [bind] in H.
  destruct (graph_run_collaborate _ _ _ _ _ _ _ _ (rounds_refl _ _)
              eq_refl Hrun) as (p & ds & g' & Hr & Hloop & Hst).
  rewrite Hst in H. inversion H. exists ds.
  split; [|split; [|split; [exact Hloop | reflexivity]]].
  - pose proof (rounds_permutation _ _ _ Hr) as Hp.
    unfold divergences_of, queue_of in Hp. simpl in Hp.
    now rewrite app_nil_r in Hp.
  - exact (rounds_sound _ _ _ Hr).
Qed.

Lemma ainvoke_result_witness :
  exists ds,
    Permutation (proposers ds) [Helpful; Honest] /\
    [ {| Proposal_role := Helpful; Proposal_proposal := "P1" |} ] =
    map Preference_proposal (recorded ds [] ["1"; "Y"; "q"]).
Proof.
  destruct (ainvoke_result [Helpful; Honest] 25 (fun _ => all_object)
              ["1"; "Y"; "q"]
              [ {| Proposal_role := Helpful; Proposal_proposal := "P1" |} ]
              eq_refl) as (ds & Hp & _ & _ & Hps).
  exists ds. split; assumption.
Defined.

(* --------------------------------------------------------------------- *)
(** ** Memories and mistyped lines *)
(* --------------------------------------------------------------------- *)





